(** * Member QA Service (main.py): a shallow embedding of the retrieval pipeline

    Strings are modelled as ASCII: Python's [str.lower], [\w], [\d], [\s] and
    [[A-Z]] are taken on their ASCII meaning.  The [re] module is modelled by a
    small backtracking matcher ([Regex.mt]) with Python's priority semantics
    (leftmost match, greedy repetition, first alternative first), enough for
    the literal patterns of main.py. *)

From Stdlib Require Import List Ascii String Bool Arith Lia ZArith.
From Stdlib Require Import Sorting.Permutation Sorting.Sorted.
Import ListNotations.
Open Scope list_scope.

(** ** Python exceptions and a result type *)

Inductive exn : Type :=
| IndexError
| KeyError
| ZeroDivisionError
| TypeError.

Inductive result (A : Type) : Type :=
| Ok (a : A)
| Err (e : exn).
Arguments Ok {A} a.
Arguments Err {A} e.

Definition rbind {A B} (m : result A) (f : A -> result B) : result B :=
  match m with Ok a => f a | Err e => Err e end.

Notation "x <- m ;; k" := (rbind m (fun x => k))
  (at level 100, m at next level, k at level 200, right associativity).

(** [xs[i]] on a Python list, for the non-negative indices the pipeline uses. *)
Definition py_index {A} (xs : list A) (i : nat) : result A :=
  match nth_error xs i with Some a => Ok a | None => Err IndexError end.

(** ** Characters *)

Definition is_digit (c : ascii) : bool :=
  let n := nat_of_ascii c in (48 <=? n) && (n <=? 57).
Definition is_upper (c : ascii) : bool :=
  let n := nat_of_ascii c in (65 <=? n) && (n <=? 90).
Definition is_lower (c : ascii) : bool :=
  let n := nat_of_ascii c in (97 <=? n) && (n <=? 122).
(** [\w] *)
Definition is_word (c : ascii) : bool :=
  is_digit c || is_upper c || is_lower c || Ascii.eqb c "_".
(** [\s] *)
Definition is_space (c : ascii) : bool :=
  let n := nat_of_ascii c in (n =? 32) || ((9 <=? n) && (n <=? 13)).

(** [str.lower] *)
Definition lower_char (c : ascii) : ascii :=
  if is_upper c then ascii_of_nat (nat_of_ascii c + 32) else c.
Definition lower (s : list ascii) : list ascii := map lower_char s.

Definition chars (s : string) : list ascii := list_ascii_of_string s.
Definition str (l : list ascii) : string := string_of_list_ascii l.

Fixpoint prefixb (p s : list ascii) : bool :=
  match p, s with
  | [], _ => true
  | c :: p', d :: s' => Ascii.eqb c d && prefixb p' s'
  | _ :: _, [] => false
  end.

(** [p in s] for strings *)
Fixpoint contains (p s : list ascii) : bool :=
  prefixb p s || match s with [] => false | _ :: s' => contains p s' end.

(** [s.split(sep, 1)[1]]: [None] when [sep] does not occur, where Python
    raises [IndexError] on the one-element list. *)
Fixpoint after_first (sep s : list ascii) : option (list ascii) :=
  if prefixb sep s then Some (skipn (List.length sep) s)
  else match s with [] => None | _ :: s' => after_first sep s' end.

(** [s.replace(old, new)] *)
Fixpoint replace_fuel (fuel : nat) (old new s : list ascii) : list ascii :=
  match fuel with
  | 0 => s
  | S f =>
      match s with
      | [] => []
      | c :: s' =>
          if prefixb old s then new ++ replace_fuel f old new (skipn (List.length old) s)
          else c :: replace_fuel f old new s'
      end
  end.
Definition replace (old new s : list ascii) : list ascii :=
  replace_fuel (S (List.length s)) old new s.

(** ** The [re] module *)

Module Regex.

Inductive regex : Type :=
| Chr (p : ascii -> bool)
| Eps
| Seq (r1 r2 : regex)
| Alt (r1 r2 : regex)
| Star (r : regex)
| Bnd
| Grp (r : regex).

(** captured span of group 1 *)
Definition cap := option (nat * nat).
(** end of the match and group 1 *)
Definition res := (nat * cap)%type.

Definition word_at (s : list ascii) (i : nat) : bool :=
  match nth_error s i with Some c => is_word c | None => false end.

(** [\b] at position [i] *)
Definition boundary (s : list ascii) (i : nat) : bool :=
  xorb (match i with 0 => false | S i' => word_at s i' end) (word_at s i).

(** Greedy repetition: one more iteration first, then the continuation.  An
    iteration that consumes nothing ends the loop. *)
Fixpoint star_loop (m : nat -> cap -> (nat -> cap -> option res) -> option res)
  (k : nat -> cap -> option res) (f i : nat) (g : cap) : option res :=
  match f with
  | 0 => k i g
  | S f' =>
      match m i g (fun j g' => if Nat.eqb j i then None else star_loop m k f' j g') with
      | Some x => Some x
      | None => k i g
      end
  end.

(** Backtracking matcher with continuation [k]. *)
Fixpoint mt (s : list ascii) (fuel : nat) (r : regex) (i : nat) (g : cap)
  (k : nat -> cap -> option res) {struct r} : option res :=
  match r with
  | Chr p =>
      match nth_error s i with
      | Some c => if p c then k (S i) g else None
      | None => None
      end
  | Eps => k i g
  | Seq r1 r2 => mt s fuel r1 i g (fun j g' => mt s fuel r2 j g' k)
  | Alt r1 r2 =>
      match mt s fuel r1 i g k with
      | Some x => Some x
      | None => mt s fuel r2 i g k
      end
  | Star r1 => star_loop (mt s fuel r1) k fuel i g
  | Bnd => if boundary s i then k i g else None
  | Grp r1 => mt s fuel r1 i g (fun j _ => k j (Some (i, j)))
  end.

Definition match_at (s : list ascii) (r : regex) (i : nat) : option res :=
  mt s (S (List.length s)) r i None (fun j g => Some (j, g)).

(** [re.search]: start, end and group 1 of the leftmost match *)
Fixpoint search_loop (s : list ascii) (r : regex) (i n : nat)
  : option (nat * nat * cap) :=
  match n with
  | 0 => None
  | S n' =>
      match match_at s r i with
      | Some (j, g) => Some (i, j, g)
      | None => search_loop s r (S i) n'
      end
  end.

Definition search (s : list ascii) (r : regex) : option (nat * nat * cap) :=
  search_loop s r 0 (S (List.length s)).

Definition found (s : list ascii) (r : regex) : bool :=
  match search s r with Some _ => true | None => false end.

Definition slice (s : list ascii) (i j : nat) : list ascii :=
  firstn (j - i) (skipn i s).

(** [m.group(1)] *)
Definition group1 (s : list ascii) (m : nat * nat * cap) : option (list ascii) :=
  match m with (_, _, Some (a, b)) => Some (slice s a b) | _ => None end.

(** [re.findall] for a pattern without groups: the whole matches, scanning on
    from the end of each (the patterns used never match the empty string). *)
Fixpoint findall_loop (s : list ascii) (r : regex) (p fuel : nat) : list (list ascii) :=
  match fuel with
  | 0 => []
  | S f =>
      match search_loop s r p (S (List.length s) - p) with
      | None => []
      | Some (i, j, _) => slice s i j :: findall_loop s r (Nat.max j (S i)) f
      end
  end.

Definition findall (s : list ascii) (r : regex) : list (list ascii) :=
  findall_loop s r 0 (S (List.length s)).

(** pattern building blocks *)
Definition plus (r : regex) : regex := Seq r (Star r).
Definition opt (r : regex) : regex := Alt r Eps.
Definition lit (w : list ascii) : regex :=
  fold_right (fun c r => Seq (Chr (Ascii.eqb c)) r) Eps w.
(** a literal under [re.IGNORECASE] *)
Definition lit_ci (w : list ascii) : regex :=
  fold_right (fun c r => Seq (Chr (fun d => Ascii.eqb (lower_char c) (lower_char d))) r) Eps w.
Fixpoint alts (rs : list regex) : regex :=
  match rs with [] => Chr (fun _ => false) | [r] => r | r :: rs' => Alt r (alts rs') end.

Definition D := Chr is_digit.
Definition W := Chr is_word.
Definition S_ := Chr is_space.
Definition Up := Chr is_upper.
Definition Lo := Chr is_lower.

End Regex.

Import Regex.

(** ** Text utilities *)

(** [tokenize]: [re.findall(r"\w+", text.lower())] *)
Definition tokenize (text : string) : list string :=
  map str (findall (lower (chars text)) (plus W)).

(** ** Data *)

(** a [datetime] object: [dt_aware] when it carries a UTC offset; [dt_value]
    orders the datetimes of one kind (the instant of an aware one, the
    wall-clock reading of a naive one) *)
Record datetime : Type := mkDatetime {
  dt_value : Z;
  dt_aware : bool
}.

(** a naive [datetime], as [datetime.now()] returns *)
Definition naive (v : Z) : datetime := mkDatetime v false.

(** a cached message: [{"user_name", "message", "timestamp"}] *)
Record Message : Type := mkMessage {
  user_name : string;
  message : string;
  timestamp : datetime
}.

(** ** Entity extraction *)

Definition QUESTION_WORDS : list string :=
  ["what"; "when"; "why"; "where"; "how"; "who"; "which"; "can";
   "please"; "looking"; "will"; "should"; "is"; "are"; "need";
   "thank"; "book"; "check"; "send"; "find"; "get"; "arrange";
   "could"; "would"; "do"; "does"]%string.

Definition is_question_word (n : list ascii) : bool :=
  existsb (fun w => String.eqb (str (lower n)) w) QUESTION_WORDS.

(** [[A-Z][a-z]+(?:\s[A-Z][a-z]+)+] *)
Definition full_name_re : regex :=
  Seq Up (Seq (plus Lo) (plus (Seq S_ (Seq Up (plus Lo))))).
(** [\b[A-Z][a-z]+\b] *)
Definition cap_word_re : regex := Seq Bnd (Seq Up (Seq (plus Lo) Bnd)).

Definition extract_person_names (q : string) : list string :=
  let full_names := filter (fun n => negb (is_question_word n))
                      (findall (chars q) full_name_re) in
  match full_names with
  | _ :: _ => map str full_names
  | [] => map str (filter (fun w => negb (is_question_word w))
                     (findall (chars q) cap_word_re))
  end.

Definition location_keywords : list string :=
  ["london"; "paris"; "tokyo"; "new york"; "dubai"; "singapore";
   "bangkok"; "aspen"; "maldives"; "bali"; "cannes"; "monaco";
   "tuscany"; "santorini"; "riviera"; "milan"; "switzerland";
   "kyoto"; "pebble beach"]%string.

Definition extract_locations (q : string) : list string :=
  filter (fun loc => contains (lower (chars loc)) (lower (chars q))) location_keywords.

Inductive qtype : Type :=
| WHO | WHEN | WHERE | HOW_MANY | WHAT_ARE | WHICH | WHY | GENERIC.

(** [\b<w>\b] *)
Definition word_re (w : string) : regex := Seq Bnd (Seq (lit (chars w)) Bnd).

Definition extract_question_type (q : string) : qtype :=
  let qlow := lower (chars q) in
  if found qlow (word_re "who") then WHO
  else if found qlow (word_re "when") then WHEN
  else if found qlow (word_re "where") then WHERE
  else if found qlow (word_re "how many") then HOW_MANY
  else if found qlow (word_re "what are") then WHAT_ARE
  else if found qlow (word_re "which") then WHICH
  else if found qlow (word_re "why") then WHY
  else GENERIC.

(** [\b(\d+)\b] *)
Definition digits_re : regex := Seq Bnd (Seq (Grp (plus D)) Bnd).

Definition strict_word_to_num : list (string * string) :=
  [("one", "1"); ("two", "2"); ("three", "3"); ("four", "4"); ("five", "5");
   ("six", "6"); ("seven", "7"); ("eight", "8"); ("nine", "9"); ("ten", "10")]%string.

Definition extract_number_strict (text : string) : option string :=
  match search (chars text) digits_re with
  | Some m => option_map str (group1 (chars text) m)
  | None =>
      let t := lower (chars text) in
      match find (fun wv => found t (word_re (fst wv))) strict_word_to_num with
      | Some (_, v) => Some v
      | None => None
      end
  end.

(** ** Retrieval and filtering *)

(** [get_context idx w], where [n = len(_CACHE["messages"])] *)
Definition get_context (n idx w : nat) : list nat :=
  seq (idx - w) (Nat.min n (idx + w + 1) - (idx - w)).

(** The context loop of [answer_question]: [seen] always holds the elements of
    [cand_idx], so membership is tested on [cand_idx]. *)
Definition add_unseen (cand : list nat) (j : nat) : list nat :=
  if existsb (Nat.eqb j) cand then cand else cand ++ [j].

Definition expand_context (n w : nat) (top : list nat) : list nat :=
  fold_left (fun cand idx => fold_left add_unseen (get_context n idx w) cand) top [].

(** a list comprehension whose condition may raise *)
Fixpoint filter_r {A} (p : A -> result bool) (l : list A) : result (list A) :=
  match l with
  | [] => Ok []
  | x :: l' =>
      b <- p x ;;
      rest <- filter_r p l' ;;
      Ok (if b then x :: rest else rest)
  end.

Definition any_in (needles : list string) (hay : string) : bool :=
  existsb (fun p => contains (lower (chars p)) (lower (chars hay))) needles.

Definition filter_with (persons locations : list string) (candidates : list nat)
  (msgs : list Message) : result (list nat) :=
  let filtered := candidates in
  filtered <-
    (match persons with
     | [] => Ok filtered
     | _ :: _ =>
         person_matches <-
           filter_r (fun i => m <- py_index msgs i ;; Ok (any_in persons (user_name m)))
             filtered ;;
         Ok (match person_matches with [] => filtered | _ :: _ => person_matches end)
     end) ;;
  filtered <-
    (if negb (match locations with [] => true | _ => false end)
        && (5 <? List.length filtered) then
       location_matches <-
         filter_r (fun i => m <- py_index msgs i ;; Ok (any_in locations (message m)))
           filtered ;;
       Ok (match location_matches with [] => filtered | _ :: _ => location_matches end)
     else Ok filtered) ;;
  Ok (match filtered with [] => candidates | _ :: _ => filtered end).

Definition filter_candidates_by_entities (candidates : list nat) (q : string)
  (msgs : list Message) : result (list nat) :=
  filter_with (extract_person_names q) (extract_locations q) candidates msgs.

(** ** Ranking *)

(** The index object of [rank_bm25] (an external library): it keeps the
    tokenized corpus it was built from. *)
Record BM25 : Type := mkBM25 { bm25_corpus : list (list string) }.

(** [BM25Okapi(corpus)]: the library divides by the corpus size
    ([avgdl = num_doc / corpus_size]) and by the number of distinct terms
    ([average_idf = idf_sum / len(idf)]), so it raises [ZeroDivisionError] on
    an empty corpus and on a corpus without a single token. *)
Definition BM25Okapi (corpus : list (list string)) : result BM25 :=
  match corpus with
  | [] => Err ZeroDivisionError
  | _ => if forallb (fun d => match d with [] => true | _ => false end) corpus
         then Err ZeroDivisionError else Ok (mkBM25 corpus)
  end.

(** Stable insertion by key: an element goes after the elements of equal key
    already in place. *)
Fixpoint insert_by {A} (key : A -> Z) (x : A) (l : list A) : list A :=
  match l with
  | [] => [x]
  | y :: l' => if (key x <? key y)%Z then x :: l else y :: insert_by key x l'
  end.

Definition sort_by {A} (key : A -> Z) (l : list A) : list A :=
  fold_left (fun acc x => insert_by key x acc) l [].

(** [np.argsort(scores, kind="stable")]; scores are compared by their order
    only, so they are modelled as integers. *)
Definition stable_argsort (scores : list Z) : list nat :=
  sort_by (fun i => nth i scores 0%Z) (seq 0 (List.length scores)).

(** What numpy documents of [np.argsort(scores)]: every index of the scores
    once, in ascending score order.  Its default sort (kind "quicksort": an
    introsort, or a SIMD sort on x86) is not stable, so the order of equal
    scores is left to the implementation; the pipeline takes [np.argsort] as
    a parameter and assumes this of it.  Numpy's insertion sort of short
    arrays outside the SIMD path gives [stable_argsort]. *)
Definition argsort_spec (argsort : list Z -> list nat) : Prop :=
  forall scores,
    Permutation (argsort scores) (seq 0 (List.length scores))
    /\ Sorted (fun i j => (nth i scores 0 <= nth j scores 0)%Z) (argsort scores).

(** [order = np.argsort(scores)[::-1]; top_k_indices = order[:20]] *)
Definition top_k_indices (argsort : list Z -> list nat) (scores : list Z)
  : list nat :=
  firstn 20 (rev (argsort scores)).

(** [a < b] on datetimes: comparing a naive with an aware one raises
    [TypeError] *)
Definition dt_lt (a b : datetime) : result bool :=
  if Bool.eqb (dt_aware a) (dt_aware b) then Ok (dt_value a <? dt_value b)%Z
  else Err TypeError.

(** Python's [list.sort(key=...)] is a stable comparison sort whose key
    comparisons [<] may raise; it is modelled by a stable insertion sort
    making its comparisons with [dt_lt].  Any stable comparison sort has the
    same outcome: on a list holding a naive and an aware key it compares some
    naive key with some aware one (had it not, ordering every naive key below
    every aware one, or every aware key below every naive one, would agree
    with all its comparisons, and its one output could not be sorted both
    ways), so it raises [TypeError]; on keys of one kind it returns the
    stably sorted list ([py_sort_cases] below). *)
Fixpoint insert_r {A} (key : A -> datetime) (x : A) (l : list A)
  : result (list A) :=
  match l with
  | [] => Ok [x]
  | y :: l' =>
      b <- dt_lt (key x) (key y) ;;
      if b then Ok (x :: l) else (r <- insert_r key x l' ;; Ok (y :: r))
  end.

Fixpoint sort_r {A} (key : A -> datetime) (l acc : list A) : result (list A) :=
  match l with
  | [] => Ok acc
  | x :: l' => acc' <- insert_r key x acc ;; sort_r key l' acc'
  end.

Definition py_sort {A} (key : A -> datetime) (l : list A) : result (list A) :=
  sort_r key l [].

(** ** Answer patterns *)

Definition NOT_FOUND_ANSWER : string :=
  "This topic or answer does not exist in the conversation.".

Definition months : list string :=
  ["January"; "February"; "March"; "April"; "May"; "June"; "July"; "August";
   "September"; "October"; "November"; "December"]%string.
Definition weekdays : list string :=
  ["Monday"; "Tuesday"; "Wednesday"; "Thursday"; "Friday"; "Saturday"; "Sunday"]%string.

(** the four [date_patterns], all searched with [re.IGNORECASE] *)
Definition date_patterns : list regex :=
  [ Seq (Grp (alts (map (fun w => lit_ci (chars w)) months)))
        (Seq (plus S_) (Seq D (opt D)));
    Seq Bnd (Seq (Grp (alts
      [lit_ci (chars "today"); lit_ci (chars "tomorrow"); lit_ci (chars "tonight");
       Seq (lit_ci (chars "next")) (Seq (plus S_) (plus W));
       Seq (lit_ci (chars "this")) (Seq (plus S_) (plus W));
       Seq (lit_ci (chars "last")) (Seq (plus S_) (plus W))])) Bnd);
    Seq Bnd (Seq (Grp (alts (map (fun w => lit_ci (chars w)) weekdays))) Bnd);
    Seq Bnd (Seq D (Seq (opt D) (Seq (lit (chars "/")) (Seq D (Seq (opt D)
      (Seq (opt (Seq (lit (chars "/")) (Seq D (Seq D (Seq (opt D) (opt D)))))) Bnd))))))
  ].

Definition has_date (msg : string) : bool :=
  existsb (fun p => found (chars msg) p) date_patterns.

(** [\b(?:to|in|at)\s+([A-Z][a-z]+(?:\s[A-Z][a-z]+)* )] (the source has no space before the last parenthesis) *)
Definition loc_regex : regex :=
  Seq Bnd (Seq (alts [lit (chars "to"); lit (chars "in"); lit (chars "at")])
    (Seq (plus S_) (Grp (Seq Up (Seq (plus Lo) (Star (Seq S_ (Seq Up (plus Lo))))))))).

(** [how many\s+(\w+)] *)
Definition noun_regex : regex :=
  Seq (lit (chars "how many")) (Seq (plus S_) (Grp (plus W))).

(** [for idx in cand_idx: ... return ...]: the first candidate for which the
    loop body returns, or [None] when the loop runs to its end *)
Fixpoint first_r (f : nat -> result (option string)) (l : list nat)
  : result (option string) :=
  match l with
  | [] => Ok None
  | i :: l' => r <- f i ;; match r with Some a => Ok (Some a) | None => first_r f l' end
  end.

Definition or_not_found (r : option string) : string :=
  match r with Some a => a | None => NOT_FOUND_ANSWER end.

(** [msg.split(sep, 1)[1]] *)
Definition split_after (sep msg : string) : result string :=
  match after_first (chars sep) (chars msg) with
  | Some a => Ok (str a)
  | None => Err IndexError
  end.

(** ** The pipeline *)

Section Pipeline.

(** [np.argsort], of which [argsort_spec] is what numpy guarantees *)
Variable argsort : list Z -> list nat.
(** [bm25.get_scores(q_tokens)] of the external library *)
Variable get_scores : BM25 -> list string -> list Z.
(** [datetime.fromisoformat] ([None] where it raises [ValueError]) *)
Variable fromisoformat : string -> option datetime.
(** [datetime.now()] *)
Variable now : Z.

(** [answer_question] after [ensure_index()], on [msgs = _CACHE["messages"]]
    and [bm25 = _CACHE["bm25"]] *)
Definition answer_from (msgs : list Message) (bm25 : option BM25) (q : string)
  : result string :=
  match bm25 with
  | None => Ok NOT_FOUND_ANSWER
  | Some ix =>
  let q_tokens := tokenize q in
  match q_tokens with
  | [] => Ok NOT_FOUND_ANSWER
  | _ :: _ =>
  let scores := get_scores ix q_tokens in
  let top_k := top_k_indices argsort scores in
  let cand_idx := expand_context (List.length msgs) 2 top_k in
  match cand_idx with
  | [] => Ok NOT_FOUND_ANSWER
  | _ :: _ =>
  cand_idx <- filter_candidates_by_entities cand_idx q msgs ;;
  let qlow := lower (chars q) in
  match extract_question_type q with
  | WHO =>
      match top_k with
      | i :: _ => m <- py_index msgs i ;; Ok (user_name m)
      | [] => Ok NOT_FOUND_ANSWER
      end
  | WHEN =>
      r <- first_r (fun idx => m <- py_index msgs idx ;;
                     Ok (if has_date (message m) then Some (message m) else None))
             cand_idx ;;
      match r with
      | Some a => Ok a
      | None =>
          let persons := extract_person_names q in
          let locations := extract_locations q in
          match persons with
          | [] => Ok NOT_FOUND_ANSWER
          | _ :: _ =>
              Ok (match find (fun m =>
                       any_in persons (user_name m) && has_date (message m)
                       && match locations with
                          | [] => true
                          | _ :: _ => any_in locations (message m)
                          end) msgs with
                  | Some m => message m
                  | None => NOT_FOUND_ANSWER
                  end)
          end
      end
  | WHERE =>
      r <- first_r (fun idx => m <- py_index msgs idx ;;
                     Ok (match search (chars (message m)) loc_regex with
                         | Some mm => option_map str (group1 (chars (message m)) mm)
                         | None => None
                         end)) cand_idx ;;
      Ok (or_not_found r)
  | HOW_MANY =>
      let noun := match search qlow noun_regex with
                  | Some mm => group1 qlow mm
                  | None => None
                  end in
      r <- first_r (fun idx => m <- py_index msgs idx ;;
                     Ok (match noun with
                         | Some (_ :: _ as n) =>
                             if contains n (lower (chars (message m))) then
                               match extract_number_strict (message m) with
                               | Some num => if String.eqb num "" then None else Some num
                               | None => None
                               end
                             else None
                         | _ => None
                         end)) cand_idx ;;
      Ok (or_not_found r)
  | WHICH =>
      r <- first_r (fun idx => m <- py_index msgs idx ;;
                     if contains (chars " at ") (lower (chars (message m)))
                     then a <- split_after " at " (message m) ;; Ok (Some a)
                     else Ok None) cand_idx ;;
      Ok (or_not_found r)
  | WHAT_ARE =>
      r <- first_r (fun idx => m <- py_index msgs idx ;;
                     if contains (chars " are ") (lower (chars (message m)))
                     then a <- split_after " are " (message m) ;; Ok (Some a)
                     else Ok None) cand_idx ;;
      Ok (or_not_found r)
  | WHY =>
      r <- first_r (fun idx => m <- py_index msgs idx ;;
                     Ok (if contains (chars "because") (lower (chars (message m)))
                         then Some (message m) else None)) cand_idx ;;
      Ok (or_not_found r)
  | GENERIC =>
      match cand_idx, top_k with
      | i :: _, _ => m <- py_index msgs i ;; Ok (message m)
      | [], i :: _ => m <- py_index msgs i ;; Ok (message m)
      | [], [] => Ok NOT_FOUND_ANSWER
      end
  end
  end
  end
  end.

(** *** Corpus acquisition *)

(** a raw item of the JSON data; [None] for a missing key *)
Record RawItem : Type := mkRawItem {
  r_user_name : option string;
  r_message : option string;
  r_timestamp : option string
}.

(** The two sources [fetch_messages] reads: the ["items"] of
    [all_messages.json] ([None] when the file is absent or unreadable), and
    the items the paginated API loop accumulated before it stopped. *)
Record Source : Type := mkSource {
  local_items : option (list RawItem);
  api_items : list RawItem
}.

(** [it["_parsed_timestamp"]]: [KeyError] and [ValueError] give
    [datetime.now()] *)
Definition parse_ts (prep : string -> string) (it : RawItem) : datetime :=
  match r_timestamp it with
  | None => naive now
  | Some t => match fromisoformat (prep t) with Some d => d | None => naive now end
  end.

Definition to_message (p : RawItem * datetime) : result Message :=
  match r_user_name (fst p), r_message (fst p) with
  | Some u, Some m => Ok (mkMessage u m (snd p))
  | _, _ => Err KeyError
  end.

Fixpoint map_r {A B} (f : A -> result B) (l : list A) : result (list B) :=
  match l with
  | [] => Ok []
  | x :: l' => y <- f x ;; ys <- map_r f l' ;; Ok (y :: ys)
  end.

(** parse timestamps, [items.sort(key=...)], then build the message dicts *)
Definition messages_of (prep : string -> string) (items : list RawItem)
  : result (list Message) :=
  sorted <- py_sort snd (map (fun it => (it, parse_ts prep it)) items) ;;
  map_r to_message sorted.

Definition strip_utc (t : string) : string :=
  str (replace (chars "+00:00") [] (chars t)).

(** [fetch_messages]: any exception of the local-file branch is caught and
    falls back to the API branch, whose exceptions propagate. *)
Definition fetch_messages (src : Source) : result (list Message) :=
  let from_api := messages_of (fun t => t) (api_items src) in
  match local_items src with
  | Some ((_ :: _) as items) =>
      match messages_of strip_utc items with
      | Ok ms => Ok ms
      | Err _ => from_api
      end
  | _ => from_api
  end.

Definition build_index (messages : list Message)
  : result (list (list string) * BM25) :=
  let docs_tokens :=
    map (fun m => tokenize (user_name m ++ " " ++ message m)%string) messages in
  bm25 <- BM25Okapi docs_tokens ;;
  Ok (docs_tokens, bm25).

End Pipeline.

(** *** The process-wide cache [_CACHE] *)

Record Cache : Type := mkCache {
  c_messages : list Message;
  c_doc_tokens : list (list string);
  c_bm25 : option BM25
}.

Definition empty_cache : Cache := mkCache [] [] None.

(** A computation on [_CACHE]: its result (or exception), the final cache,
    and the cache after each single write, in order (what a concurrent reader
    of [_CACHE] can observe). *)
Definition M (A : Type) : Type := Cache -> result A * Cache * list Cache.

Definition mret {A} (a : A) : M A := fun c => (Ok a, c, []).
Definition lift {A} (r : result A) : M A := fun c => (r, c, []).
Definition get_cache : M Cache := fun c => (Ok c, c, []).
Definition mbind {A B} (m : M A) (f : A -> M B) : M B :=
  fun c =>
    match m c with
    | (Ok a, c1, t1) => match f a c1 with (r, c2, t2) => (r, c2, t1 ++ t2) end
    | (Err e, c1, t1) => (Err e, c1, t1)
    end.

Notation "x <-- m ;;; k" := (mbind m (fun x => k))
  (at level 100, m at next level, k at level 200, right associativity).

(** [_CACHE["messages"] = ...] and its siblings: one write each *)
Definition set_messages (ms : list Message) : M unit :=
  fun c => let c' := mkCache ms (c_doc_tokens c) (c_bm25 c) in (Ok tt, c', [c']).
Definition set_doc_tokens (dt : list (list string)) : M unit :=
  fun c => let c' := mkCache (c_messages c) dt (c_bm25 c) in (Ok tt, c', [c']).
Definition set_bm25 (b : option BM25) : M unit :=
  fun c => let c' := mkCache (c_messages c) (c_doc_tokens c) b in (Ok tt, c', [c']).

Section Service.

Variable argsort : list Z -> list nat.
Variable get_scores : BM25 -> list string -> list Z.
Variable fromisoformat : string -> option datetime.
Variable now : Z.
Variable src : Source.

Definition ensure_index : M unit :=
  c <-- get_cache ;;;
  match c_bm25 c with
  | Some _ => mret tt
  | None =>
      messages <-- lift (fetch_messages fromisoformat now src) ;;;
      p <-- lift (build_index messages) ;;;
      _ <-- set_messages messages ;;;
      _ <-- set_doc_tokens (fst p) ;;;
      set_bm25 (Some (snd p))
  end.

Definition answer_question (q : string) : M string :=
  _ <-- ensure_index ;;;
  c <-- get_cache ;;;
  lift (answer_from argsort get_scores (c_messages c) (c_bm25 c) q).

Definition refresh : M string :=
  _ <-- set_messages [] ;;;
  _ <-- set_doc_tokens [] ;;;
  _ <-- set_bm25 None ;;;
  _ <-- ensure_index ;;;
  mret "refreshed"%string.

End Service.

(** ** [extract_numbers] (not called by the pipeline) *)

Definition word_to_num : list (string * string) :=
  [("zero", "0"); ("one", "1"); ("two", "2"); ("three", "3"); ("four", "4");
   ("five", "5"); ("six", "6"); ("seven", "7"); ("eight", "8"); ("nine", "9");
   ("ten", "10"); ("eleven", "11"); ("twelve", "12"); ("twenty", "20");
   ("thirty", "30"); ("hundred", "100")]%string.

(** [r"\b(" + "|".join(word_to_num.keys()) + r")\b"] *)
Definition num_words_re : regex :=
  Seq Bnd (Seq (Grp (alts (map (fun wv => lit (chars (fst wv))) word_to_num))) Bnd).

(** [re.findall] for a pattern with one group: the text of group 1 of each
    match ([""] if the group did not take part), scanning on from the end of
    each match. *)
Fixpoint findall_groups_loop (s : list ascii) (r : regex) (p fuel : nat)
  : list (list ascii) :=
  match fuel with
  | 0 => []
  | S f =>
      match search_loop s r p (S (List.length s) - p) with
      | None => []
      | Some (i, j, g) =>
          match g with Some (a, b) => slice s a b | None => [] end
          :: findall_groups_loop s r (Nat.max j (S i)) f
      end
  end.

Definition findall_groups (s : list ascii) (r : regex) : list (list ascii) :=
  findall_groups_loop s r 0 (S (List.length s)).

(** [d[k]] on a dict with string keys *)
Definition dict_get (d : list (string * string)) (k : string) : result string :=
  match find (fun kv => String.eqb (fst kv) k) d with
  | Some (_, v) => Ok v
  | None => Err KeyError
  end.

Definition extract_numbers (text : string) : result (list string) :=
  let digits := map str (findall_groups (chars text) digits_re) in
  let words := map str (findall_groups (lower (chars text)) num_words_re) in
  words_converted <- map_r (dict_get word_to_num) words ;;
  Ok (digits ++ words_converted).

(** ** Specification-side definitions

    These follow the words of the specification, to be compared with the
    definitions above. *)

(** keep the first occurrence of every element, in order *)
Fixpoint dedup_first (l : list nat) : list nat :=
  match l with
  | [] => []
  | x :: l' => x :: remove Nat.eq_dec x (dedup_first l')
  end.

(** the order the specification asks of the top-k selection: higher score
    first, equal scores by lower index *)
Definition ranked_before_spec (scores : list Z) (i j : nat) : Prop :=
  (nth j scores 0%Z < nth i scores 0%Z)%Z \/ (nth i scores 0%Z = nth j scores 0%Z /\ i < j).

(** [w] occurs in [s] at [i] as a whole word (or phrase): no word character
    right before it nor right after it *)
Definition prev_word (s : list ascii) (i : nat) : bool :=
  match i with 0 => false | S i' => word_at s i' end.

Definition whole_word_at (s w : list ascii) (i : nat) : bool :=
  negb (prev_word s i) && prefixb w (skipn i s) && negb (word_at s (i + List.length w)).

Definition has_word (s : list ascii) (w : string) : bool :=
  existsb (whole_word_at s (chars w)) (seq 0 (S (List.length s))).

Definition question_type_spec (q : string) : qtype :=
  let qlow := lower (chars q) in
  if has_word qlow "who" then WHO
  else if has_word qlow "when" then WHEN
  else if has_word qlow "where" then WHERE
  else if has_word qlow "how many" then HOW_MANY
  else if has_word qlow "what are" then WHAT_ARE
  else if has_word qlow "which" then WHICH
  else if has_word qlow "why" then WHY
  else GENERIC.

(** length of the run of digits at the head of [l] *)
Fixpoint digit_run (l : list ascii) : nat :=
  match l with
  | c :: l' => if is_digit c then S (digit_run l') else 0
  | [] => 0
  end.

(** a maximal run of digits starting at [i], with no word character on
    either side *)
Definition standalone_at (s : list ascii) (i : nat) : bool :=
  negb (prev_word s i) && (0 <? digit_run (skipn i s))
  && negb (word_at s (i + digit_run (skipn i s))).

Definition first_standalone_run (s : list ascii) : option (list ascii) :=
  match find (standalone_at s) (seq 0 (S (List.length s))) with
  | Some i => Some (slice s i (i + digit_run (skipn i s)))
  | None => None
  end.

Definition number_strict_spec (text : string) : option string :=
  match first_standalone_run (chars text) with
  | Some d => Some (str d)
  | None =>
      match find (fun wv => has_word (lower (chars text)) (fst wv)) strict_word_to_num with
      | Some (_, v) => Some v
      | None => None
      end
  end.

Definition dummy_message : Message := mkMessage "" "" (naive 0).


(** adopt a restriction only if it is non-empty *)
Definition adopt (restricted fallback : list nat) : list nat :=
  match restricted with [] => fallback | _ :: _ => restricted end.

(** the candidate filter as the specification words it, without exceptions *)
Definition filter_spec (persons locations : list string) (candidates : list nat)
  (msgs : list Message) : list nat :=
  let f1 :=
    match persons with
    | [] => candidates
    | _ :: _ =>
        adopt (filter (fun i => any_in persons (user_name (nth i msgs dummy_message)))
                 candidates) candidates
    end in
  match locations with
  | _ :: _ =>
      if 5 <? List.length f1 then
        adopt (filter (fun i => any_in locations (message (nth i msgs dummy_message))) f1) f1
      else f1
  | [] => f1
  end.

(** an uppercase ASCII letter immediately followed by a lowercase one *)
Fixpoint upper_lower_pair (l : list ascii) : bool :=
  match l with
  | a :: ((b :: _) as t) => (is_upper a && is_lower b) || upper_lower_pair t
  | _ => false
  end.

(** [w] starts and ends with a word character, so [\b] before and after it
    only looks at the neighbouring characters of [s] *)
Definition word_ends (w : list ascii) : bool :=
  match nth_error w 0, nth_error w (List.length w - 1) with
  | Some a, Some b => is_word a && is_word b
  | _, _ => false
  end.

(** The outcomes of a greedy repetition that can stop at [i + r], ...,
    [i + 1] or [i]: the continuation [k] tried from the longest. *)
Fixpoint dfirst (k : nat -> option res) (i r : nat) : option res :=
  match r with
  | 0 => k i
  | S r' => match dfirst k (S i) r' with Some x => Some x | None => k i end
  end.

(** the positions in [i, j) all hold characters of class [p] *)
Definition class_span (p : ascii -> bool) (s : list ascii) (i j : nat) : Prop :=
  forall t, i <= t < j -> exists c, nth_error s t = Some c /\ p c = true.

(** ** Context expansion *)

Lemma remove_as_filter (x : nat) (l : list nat) :
  remove Nat.eq_dec x l = filter (fun y => negb (Nat.eqb y x)) l.
Proof.
  induction l as [|y l IH]; simpl; [reflexivity|].
  destruct (Nat.eq_dec x y) as [->|Hne].
  - rewrite Nat.eqb_refl; exact IH.
  - assert (Hb : Nat.eqb y x = false) by (apply Nat.eqb_neq; congruence).
    rewrite Hb; simpl; f_equal; exact IH.
Qed.

Lemma filter_filter_nat (p q : nat -> bool) (l : list nat) :
  filter p (filter q l) = filter (fun x => q x && p x) l.
Proof.
  induction l as [|x l IH]; simpl; [reflexivity|].
  destruct (q x); simpl; destruct (p x); simpl; rewrite ?IH; reflexivity.
Qed.

Lemma filter_ext_nat (p q : nat -> bool) (l : list nat) :
  (forall x, p x = q x) -> filter p l = filter q l.
Proof.
  intros H; induction l as [|x l IH]; simpl; [reflexivity|].
  rewrite H, IH; reflexivity.
Qed.

Lemma fold_add_unseen (l acc : list nat) :
  fold_left add_unseen l acc
  = acc ++ filter (fun x => negb (existsb (Nat.eqb x) acc)) (dedup_first l).
Proof.
  revert acc; induction l as [|x l IH]; intros acc; simpl.
  - rewrite app_nil_r; reflexivity.
  - rewrite IH; unfold add_unseen.
    rewrite remove_as_filter, filter_filter_nat.
    destruct (existsb (Nat.eqb x) acc) eqn:Hx; simpl.
    + f_equal; apply filter_ext_nat; intros y.
      destruct (Nat.eqb y x) eqn:Hyx; simpl; [|reflexivity].
      apply Nat.eqb_eq in Hyx; subst y; rewrite Hx; reflexivity.
    + rewrite <- app_assoc; simpl; do 2 f_equal.
      apply filter_ext_nat; intros y.
      rewrite existsb_app; simpl; rewrite orb_false_r.
      destruct (Nat.eqb y x), (existsb (Nat.eqb y) acc); reflexivity.
Qed.

Lemma in_get_context (n idx w j : nat) :
  In j (get_context n idx w) <-> idx - w <= j /\ j <= idx + w /\ j < n.
Proof.
  unfold get_context; rewrite in_seq; lia.
Qed.

Lemma filter_all_true_nat (p : nat -> bool) (l : list nat) :
  (forall x, p x = true) -> filter p l = l.
Proof.
  intros Hp; induction l as [|x l IH]; simpl; [reflexivity|].
  rewrite Hp, IH; reflexivity.
Qed.

Lemma expand_context_as_dedup (n w : nat) (top : list nat) :
  expand_context n w top = dedup_first (flat_map (fun idx => get_context n idx w) top).
Proof.
  unfold expand_context.
  assert (Hgen : forall acc,
    fold_left (fun cand idx => fold_left add_unseen (get_context n idx w) cand) top acc
    = fold_left add_unseen (flat_map (fun idx => get_context n idx w) top) acc).
  { induction top as [|idx top IH]; intros acc; simpl; [reflexivity|].
    rewrite fold_left_app; apply IH. }
  rewrite Hgen, fold_add_unseen; simpl; apply filter_all_true_nat; reflexivity.
Qed.

Lemma in_dedup_first (l : list nat) (x : nat) : In x (dedup_first l) <-> In x l.
Proof.
  induction l as [|y l IH]; simpl; [tauto|].
  split.
  - intros [->|Hin]; [now left|].
    apply in_remove in Hin as [Hin _]; right; apply IH, Hin.
  - intros [->|Hin]; [now left|].
    destruct (Nat.eq_dec x y) as [->|Hne]; [now left|].
    right; apply in_in_remove; [exact Hne|apply IH, Hin].
Qed.

Lemma NoDup_dedup_first (l : list nat) : NoDup (dedup_first l).
Proof.
  induction l as [|y l IH]; simpl; constructor.
  - apply remove_In.
  - rewrite remove_as_filter; apply NoDup_filter, IH.
Qed.

(** C8: for every corpus size [n], window [w] and list of top ids within
    bounds, context expansion emits only indices in [[0, n)], contains every
    top id, emits no index twice, and is exactly the first-occurrence
    deduplication of the windows [[id - w, id + w]] clamped to [[0, n)], taken
    in the order of the top ids. *)
Theorem expand_context_spec (n w : nat) (top : list nat) :
  (forall idx, In idx top -> idx < n) ->
  (forall j, In j (expand_context n w top) -> j < n)
  /\ (forall idx, In idx top -> In idx (expand_context n w top))
  /\ NoDup (expand_context n w top)
  /\ expand_context n w top = dedup_first (flat_map (fun idx => get_context n idx w) top).
Proof.
  intros Htop.
  rewrite expand_context_as_dedup.
  split; [|split; [|split]].
  - intros j Hj; apply in_dedup_first, in_flat_map in Hj as [idx [_ Hj]].
    apply in_get_context in Hj; lia.
  - intros idx Hidx; apply in_dedup_first, in_flat_map.
    exists idx; split; [exact Hidx|].
    apply in_get_context; specialize (Htop idx Hidx); lia.
  - apply NoDup_dedup_first.
  - reflexivity.
Qed.

Lemma expand_context_spec_witness :
  (forall idx, In idx [5; 0; 9] -> idx < 10)
  /\ expand_context 10 2 [5; 0; 9] = [3; 4; 5; 6; 7; 0; 1; 2; 8; 9].
Proof.
  split.
  - simpl; intros idx H; lia.
  - pose proof (expand_context_spec 10 2 [5; 0; 9]) as H.
    destruct H as [_ [_ [_ ->]]]; [simpl; intros idx Hi; lia|].
    vm_compute; reflexivity.
Defined.

(** ** Sorting and the top-k selection *)

Lemma insert_by_perm {A} (key : A -> Z) (x : A) (l : list A) :
  Permutation (insert_by key x l) (x :: l).
Proof.
  induction l as [|y l IH]; simpl; [reflexivity|].
  destruct (key x <? key y)%Z; [reflexivity|].
  rewrite IH; apply perm_swap.
Qed.

Lemma sort_by_perm_gen {A} (key : A -> Z) (l acc : list A) :
  Permutation (fold_left (fun acc x => insert_by key x acc) l acc) (l ++ acc).
Proof.
  revert acc; induction l as [|x l IH]; intros acc; simpl; [reflexivity|].
  rewrite IH, insert_by_perm; symmetry; apply Permutation_middle.
Qed.

Lemma sort_by_perm {A} (key : A -> Z) (l : list A) : Permutation (sort_by key l) l.
Proof. unfold sort_by; rewrite sort_by_perm_gen, app_nil_r; reflexivity. Qed.

Lemma StronglySorted_app_inv {A} (R : A -> A -> Prop) (l1 l2 : list A) :
  StronglySorted R (l1 ++ l2) ->
  StronglySorted R l1 /\ StronglySorted R l2
  /\ (forall x y, In x l1 -> In y l2 -> R x y).
Proof.
  induction l1 as [|a l1 IH]; simpl; intros H.
  - split; [constructor|split; [exact H|tauto]].
  - apply StronglySorted_inv in H as [H1 H2].
    destruct (IH H1) as [Hs1 [Hs2 Hx]].
    split; [constructor; [exact Hs1|]|split; [exact Hs2|]].
    + rewrite Forall_forall in *; intros x Hin; apply H2, in_or_app; now left.
    + rewrite Forall_forall in H2; intros x y [<-|Hin] Hy.
      * apply H2, in_or_app; now right.
      * now apply Hx.
Qed.

Lemma StronglySorted_app {A} (R : A -> A -> Prop) (l1 l2 : list A) :
  StronglySorted R l1 -> StronglySorted R l2 ->
  (forall x y, In x l1 -> In y l2 -> R x y) -> StronglySorted R (l1 ++ l2).
Proof.
  induction l1 as [|a l1 IH]; simpl; intros H1 H2 Hx; [exact H2|].
  apply StronglySorted_inv in H1 as [H1 Ha].
  constructor.
  - apply IH; auto.
  - rewrite Forall_forall in *; intros x Hin; apply in_app_or in Hin as [Hin|Hin]; auto.
Qed.

Lemma StronglySorted_rev {A} (R : A -> A -> Prop) (l : list A) :
  StronglySorted R l -> StronglySorted (fun x y => R y x) (rev l).
Proof.
  induction l as [|a l IH]; simpl; intros H; [constructor|].
  apply StronglySorted_inv in H as [H Ha].
  apply StronglySorted_app; [apply IH, H|repeat constructor|].
  intros x y Hx [<-|[]]; rewrite Forall_forall in Ha; apply Ha, in_rev, Hx.
Qed.

Section ArgSort.

Variable scores : list Z.

Definition key (i : nat) : Z := nth i scores 0%Z.

(** ascending argsort order: by score, equal scores by index *)
Definition lexlt (a b : nat) : Prop := (key a < key b)%Z \/ (key a = key b /\ a < b).

Lemma insert_sorted (x : nat) (l : list nat) :
  StronglySorted lexlt l -> (forall y, In y l -> y < x) ->
  StronglySorted lexlt (insert_by key x l).
Proof.
  induction l as [|y l IH]; simpl; intros Hs Hlt.
  - repeat constructor.
  - apply StronglySorted_inv in Hs as [Hs Hy].
    destruct (key x <? key y)%Z eqn:Hxy.
    + apply Z.ltb_lt in Hxy.
      constructor; [constructor; assumption|].
      constructor; [left; exact Hxy|].
      rewrite Forall_forall in *; intros z Hz; specialize (Hy z Hz).
      unfold lexlt in *; lia.
    + apply Z.ltb_ge in Hxy.
      constructor; [apply IH; [exact Hs|intros z Hz; apply Hlt; now right]|].
      rewrite Forall_forall in *; intros z Hz.
      apply (Permutation_in _ (insert_by_perm key x l)) in Hz as [<-|Hz]; [|now apply Hy].
      specialize (Hlt y (or_introl eq_refl)); unfold lexlt; lia.
Qed.

Lemma fold_insert_sorted (m a : nat) (acc : list nat) :
  StronglySorted lexlt acc -> (forall y, In y acc -> y < a) ->
  StronglySorted lexlt (fold_left (fun acc x => insert_by key x acc) (seq a m) acc).
Proof.
  revert a acc; induction m as [|m IH]; intros a acc Hs Hlt; simpl; [exact Hs|].
  apply IH.
  - apply insert_sorted; assumption.
  - intros y Hy; apply (Permutation_in _ (insert_by_perm key a acc)) in Hy as [<-|Hy];
      [lia|specialize (Hlt y Hy); lia].
Qed.

Lemma argsort_sorted : StronglySorted lexlt (stable_argsort scores).
Proof.
  unfold stable_argsort, sort_by; apply fold_insert_sorted; [constructor|simpl; tauto].
Qed.

Lemma argsort_perm :
  Permutation (stable_argsort scores) (seq 0 (List.length scores)).
Proof. unfold stable_argsort; apply sort_by_perm. Qed.

End ArgSort.

Lemma StronglySorted_impl {A} (R1 R2 : A -> A -> Prop) (l : list A) :
  (forall x y, R1 x y -> R2 x y) -> StronglySorted R1 l -> StronglySorted R2 l.
Proof.
  intros Himp; induction l as [|a l IH]; intros H; [constructor|].
  apply StronglySorted_inv in H as [H Ha]; constructor; [apply IH, H|].
  eapply Forall_impl; [|exact Ha]; auto.
Qed.

(** the stable argsort meets numpy's contract *)
Lemma stable_argsort_spec : argsort_spec stable_argsort.
Proof.
  intros scores; split; [apply argsort_perm|].
  apply StronglySorted_Sorted.
  eapply StronglySorted_impl; [|apply argsort_sorted].
  unfold lexlt, key; intros x y H; lia.
Qed.

Section TopK.

Variable argsort : list Z -> list nat.
Hypothesis Hargsort : argsort_spec argsort.
Variable scores : list Z.

(** the whole descending order, before the cut at 20 *)
Lemma rev_argsort_spec :
  Permutation (rev (argsort scores)) (seq 0 (List.length scores))
  /\ StronglySorted (fun i j => (nth j scores 0 <= nth i scores 0)%Z)
       (rev (argsort scores)).
Proof.
  destruct (Hargsort scores) as [Hp Hs]; split.
  - rewrite <- Permutation_rev; exact Hp.
  - apply (StronglySorted_rev (fun i j => (nth i scores 0 <= nth j scores 0)%Z)).
    apply Sorted_StronglySorted; [|exact Hs].
    intros x y z; lia.
Qed.

Lemma top_k_indices_range (i : nat) :
  In i (top_k_indices argsort scores) -> i < List.length scores.
Proof.
  intros Hi; unfold top_k_indices in Hi.
  assert (Hin : In i (rev (argsort scores))).
  { rewrite <- (firstn_skipn 20); apply in_or_app; now left. }
  eapply Permutation_in in Hin; [|apply rev_argsort_spec].
  apply in_seq in Hin; lia.
Qed.

Lemma top_k_indices_length :
  List.length (top_k_indices argsort scores) = Nat.min 20 (List.length scores).
Proof.
  unfold top_k_indices.
  rewrite length_firstn, (Permutation_length (proj1 rev_argsort_spec)), length_seq.
  reflexivity.
Qed.

End TopK.

(** C2 (as amended): the selection [np.argsort(scores)[::-1][:20]] returns,
    for any argsort that meets numpy's contract, min(20, n) distinct document
    indices in non-increasing score order, and every index left out scores
    no higher than every index kept.  Nothing more is fixed: the order of
    equal scores is the argsort's. *)
Theorem top_k_indices_spec (argsort : list Z -> list nat) (scores : list Z) :
  argsort_spec argsort ->
  NoDup (top_k_indices argsort scores)
  /\ List.length (top_k_indices argsort scores) = Nat.min 20 (List.length scores)
  /\ (forall i, In i (top_k_indices argsort scores) -> i < List.length scores)
  /\ StronglySorted (fun i j => (nth j scores 0 <= nth i scores 0)%Z)
       (top_k_indices argsort scores)
  /\ (forall i j, In i (top_k_indices argsort scores) -> j < List.length scores ->
        ~ In j (top_k_indices argsort scores) ->
        (nth j scores 0 <= nth i scores 0)%Z).
Proof.
  intros Ha.
  destruct (rev_argsort_spec argsort Ha scores) as [Hperm Hsorted].
  assert (Hnd : NoDup (rev (argsort scores)))
    by (eapply Permutation_NoDup; [symmetry; exact Hperm|apply seq_NoDup]).
  rewrite <- (firstn_skipn 20) in Hsorted, Hnd.
  apply StronglySorted_app_inv in Hsorted as [Htop [_ Hcross]].
  split; [|split; [|split; [|split]]].
  - exact (NoDup_app_remove_r _ _ Hnd).
  - apply top_k_indices_length, Ha.
  - apply top_k_indices_range, Ha.
  - exact Htop.
  - intros i j Hi Hj Hnot; apply Hcross; [exact Hi|].
    assert (Hin : In j (rev (argsort scores))).
    { eapply Permutation_in; [symmetry; exact Hperm|apply in_seq; lia]. }
    rewrite <- (firstn_skipn 20) in Hin.
    apply in_app_or in Hin as [Hin|Hin]; [contradiction|exact Hin].
Qed.

Lemma top_k_indices_spec_witness :
  argsort_spec stable_argsort
  /\ top_k_indices stable_argsort [1; 3; 2]%Z = [1; 2; 0]
  /\ StronglySorted (fun i j => (nth j [1; 3; 2]%Z 0 <= nth i [1; 3; 2]%Z 0)%Z)
       (top_k_indices stable_argsort [1; 3; 2]%Z).
Proof.
  split; [exact stable_argsort_spec|split; [reflexivity|]].
  exact (proj1 (proj2 (proj2 (proj2
           (top_k_indices_spec stable_argsort [1; 3; 2]%Z stable_argsort_spec))))).
Defined.

(** C2, counterexample: the stable argsort meets numpy's contract (it is
    [np.argsort(kind="stable")], and what numpy's default sort does on short
    arrays outside its SIMD path), and with it two documents with equal
    scores (e.g. neither contains a query term) come out later message
    first, against the tie rule of the specification. *)
Lemma top_k_tie_prefers_later :
  argsort_spec stable_argsort
  /\ top_k_indices stable_argsort [0; 0]%Z = [1; 0]
  /\ ~ StronglySorted (ranked_before_spec [0; 0]%Z) (top_k_indices stable_argsort [0; 0]%Z).
Proof.
  split; [exact stable_argsort_spec|split; [reflexivity|]].
  change (top_k_indices stable_argsort [0; 0]%Z) with [1; 0].
  intros H; apply StronglySorted_inv in H as [_ H].
  inversion H as [|x l Hx _]; subst.
  unfold ranked_before_spec in Hx; simpl in Hx; lia.
Qed.

(** ** The regular-expression matcher *)

Lemma skipn_nth_error (s : list ascii) (i : nat) :
  skipn i s = match nth_error s i with Some c => c :: skipn (S i) s | None => [] end.
Proof.
  revert s; induction i as [|i IH]; intros [|c s]; simpl; try reflexivity.
  apply IH.
Qed.

Lemma mt_lit (w s : list ascii) (f i : nat) (g : cap) (k : nat -> cap -> option res) :
  mt s f (lit w) i g k
  = if prefixb w (skipn i s) then k (i + List.length w) g else None.
Proof.
  revert i; induction w as [|c w IH]; intros i; simpl.
  - rewrite Nat.add_0_r; destruct (skipn i s); reflexivity.
  - rewrite (skipn_nth_error s i).
    destruct (nth_error s i) as [d|]; [|reflexivity].
    simpl; destruct (Ascii.eqb c d); simpl; [|reflexivity].
    rewrite IH, Nat.add_succ_r; reflexivity.
Qed.

Lemma prefixb_nth (w s : list ascii) (i : nat) :
  prefixb w (skipn i s) = true ->
  forall n c, nth_error w n = Some c -> nth_error s (i + n) = Some c.
Proof.
  revert i; induction w as [|a w IH]; intros i Hp n c Hn.
  - destruct n; discriminate.
  - rewrite (skipn_nth_error s i) in Hp.
    destruct (nth_error s i) as [d|] eqn:Hd; [|discriminate].
    simpl in Hp; apply andb_prop in Hp as [Had Hp].
    apply Ascii.eqb_eq in Had; subst d.
    destruct n as [|n]; simpl in Hn.
    + injection Hn as <-; rewrite Nat.add_0_r; exact Hd.
    + rewrite Nat.add_succ_r; exact (IH (S i) Hp n c Hn).
Qed.

Lemma search_loop_find (s : list ascii) (r : regex) (a n : nat) :
  search_loop s r a n
  = match find (fun i => match match_at s r i with Some _ => true | None => false end)
                 (seq a n) with
    | Some i => match match_at s r i with Some (j, g) => Some (i, j, g) | None => None end
    | None => None
    end.
Proof.
  revert a; induction n as [|n IH]; intros a; simpl; [reflexivity|].
  destruct (match_at s r a) as [[j g]|] eqn:Hm; simpl; [rewrite Hm; reflexivity|apply IH].
Qed.

Lemma found_existsb (s : list ascii) (r : regex) :
  found s r = existsb (fun i => match match_at s r i with Some _ => true | None => false end)
                (seq 0 (S (List.length s))).
Proof.
  unfold found, search; rewrite search_loop_find.
  induction (seq 0 (S (List.length s))) as [|i l IH]; simpl; [reflexivity|].
  destruct (match_at s r i) as [[j g]|] eqn:Hm; simpl; [rewrite Hm; reflexivity|exact IH].
Qed.

Lemma existsb_ext_in {A} (f g : A -> bool) (l : list A) :
  (forall x, In x l -> f x = g x) -> existsb f l = existsb g l.
Proof.
  induction l as [|x l IH]; simpl; intros H; [reflexivity|].
  rewrite H by (now left); rewrite IH by (intros y Hy; apply H; now right).
  reflexivity.
Qed.

Lemma match_at_word (s : list ascii) (w : string) (i : nat) :
  word_ends (chars w) = true ->
  match match_at s (word_re w) i with Some _ => true | None => false end
  = whole_word_at s (chars w) i.
Proof.
  intros Hends; unfold match_at, word_re, whole_word_at; simpl mt.
  rewrite mt_lit; simpl mt.
  unfold word_ends in Hends.
  destruct (nth_error (chars w) 0) as [a|] eqn:Ha; [|discriminate].
  destruct (nth_error (chars w) (List.length (chars w) - 1)) as [b|] eqn:Hb;
    [|discriminate].
  apply andb_prop in Hends as [Hwa Hwb].
  destruct (prefixb (chars w) (skipn i s)) eqn:Hp.
  2: { destruct (boundary s i); rewrite ?andb_false_r; reflexivity. }
  pose proof (prefixb_nth _ _ _ Hp 0 a Ha) as Hsa.
  pose proof (prefixb_nth _ _ _ Hp _ b Hb) as Hsb.
  assert (Hlen : List.length (chars w) <> 0).
  { intros H0; destruct (chars w); [discriminate|discriminate]. }
  assert (Hbi : boundary s i = negb (prev_word s i)).
  { unfold boundary, prev_word, word_at at 2; rewrite Nat.add_0_r in Hsa.
    rewrite Hsa, Hwa; destruct i; simpl; [reflexivity|].
    destruct (word_at s i); reflexivity. }
  assert (Hbe : boundary s (i + List.length (chars w))
                = negb (word_at s (i + List.length (chars w)))).
  { unfold boundary.
    replace (i + List.length (chars w)) with (S (i + (List.length (chars w) - 1))) by lia.
    unfold word_at at 1; rewrite Hsb, Hwb; simpl.
    destruct (word_at s _); reflexivity. }
  rewrite Hbi, Hbe.
  destruct (prev_word s i), (word_at s (i + List.length (chars w))); reflexivity.
Qed.

Lemma found_word (s : list ascii) (w : string) :
  word_ends (chars w) = true -> found s (word_re w) = has_word s w.
Proof.
  intros Hends; rewrite found_existsb; unfold has_word.
  apply existsb_ext_in; intros i _; apply match_at_word, Hends.
Qed.

(** ** Question type *)

(** C6: [extract_question_type] tests the lowercased query for whole-word
    (whole-phrase) occurrences in the order who, when, where, how many,
    what are, which, why, returns the first type that matches and GENERIC
    when none does; in particular a query with both "who" and "when" is
    classified WHO. *)
Theorem extract_question_type_spec (q : string) :
  extract_question_type q = question_type_spec q
  /\ (has_word (lower (chars q)) "who" = true ->
      has_word (lower (chars q)) "when" = true ->
      extract_question_type q = WHO).
Proof.
  assert (Heq : extract_question_type q = question_type_spec q).
  { unfold extract_question_type, question_type_spec.
    rewrite !found_word by reflexivity; reflexivity. }
  split; [exact Heq|].
  intros Hwho _; rewrite Heq; unfold question_type_spec; rewrite Hwho; reflexivity.
Qed.

Lemma extract_question_type_spec_witness :
  has_word (lower (chars "Who said when?")) "who" = true
  /\ extract_question_type "Who said when?" = WHO.
Proof.
  split; [vm_compute; reflexivity|].
  apply (proj2 (extract_question_type_spec "Who said when?")); vm_compute; reflexivity.
Defined.

(** ** Strict number extraction *)

Lemma digit_run_le (l : list ascii) : digit_run l <= List.length l.
Proof.
  induction l as [|c l IH]; simpl; [lia|]; destruct (is_digit c); lia.
Qed.

Lemma digit_run_nth (l : list ascii) (m : nat) :
  m < digit_run l -> exists c, nth_error l m = Some c /\ is_digit c = true.
Proof.
  revert m; induction l as [|c l IH]; intros m Hm; simpl in Hm; [lia|].
  destruct (is_digit c) eqn:Hc; [|lia].
  destruct m as [|m]; simpl; [exists c; split; [reflexivity|exact Hc]|].
  apply IH; lia.
Qed.

Lemma digit_is_word (c : ascii) : is_digit c = true -> is_word c = true.
Proof. unfold is_word; intros ->; reflexivity. Qed.

Lemma dfirst_last (k : nat -> option res) (a r : nat) :
  (forall b, a <= b < a + r -> k b = None) -> dfirst k a r = k (a + r).
Proof.
  revert a; induction r as [|r IH]; intros a Hk; simpl.
  - rewrite Nat.add_0_r; reflexivity.
  - rewrite IH by (intros b Hb; apply Hk; lia).
    replace (S a + r) with (a + S r) by lia.
    destruct (k (a + S r)); [reflexivity|].
    apply Hk; lia.
Qed.

Section DigitStar.

Variable s : list ascii.
Variable F : nat.

Lemma star_digits (K : nat -> cap -> option res) (f j : nat) (g : cap) :
  digit_run (skipn j s) < f ->
  star_loop (mt s F D) K f j g = dfirst (fun b => K b g) j (digit_run (skipn j s)).
Proof.
  revert j; induction f as [|f IH]; intros j Hf; [lia|].
  cbn [star_loop mt D].
  rewrite (skipn_nth_error s j) in *.
  destruct (nth_error s j) as [c|]; cbn [digit_run dfirst] in *; [|reflexivity].
  destruct (is_digit c); cbn [dfirst] in *; [|reflexivity].
  replace (S j =? j) with false by (symmetry; apply Nat.eqb_neq; lia).
  rewrite IH by lia; reflexivity.
Qed.

End DigitStar.

Lemma mt_D (s : list ascii) (f i : nat) (g : cap) (k : nat -> cap -> option res) :
  mt s f D i g k
  = match nth_error s i with Some c => if is_digit c then k (S i) g else None | None => None end.
Proof. reflexivity. Qed.

Lemma digit_at (s : list ascii) (i m : nat) :
  m < digit_run (skipn i s) -> word_at s (i + m) = true.
Proof.
  intros Hm; apply digit_run_nth in Hm as [c [Hc Hd]].
  rewrite nth_error_skipn in Hc; unfold word_at; rewrite Hc.
  apply digit_is_word, Hd.
Qed.

Lemma match_at_digits (s : list ascii) (i : nat) :
  match_at s digits_re i
  = if standalone_at s i
    then Some (i + digit_run (skipn i s), Some (i, i + digit_run (skipn i s)))
    else None.
Proof.
  unfold match_at, digits_re, plus, standalone_at; cbn [mt].
  rewrite mt_D.
  pose proof (skipn_nth_error s i) as Hsk.
  destruct (nth_error s i) as [c|] eqn:Hi.
  2: { rewrite Hsk; simpl; rewrite andb_false_r; destruct (boundary s i); reflexivity. }
  destruct (is_digit c) eqn:Hc.
  2: { rewrite Hsk; simpl; rewrite Hc; simpl; rewrite andb_false_r;
       destruct (boundary s i); reflexivity. }
  assert (Hrun : digit_run (skipn i s) = S (digit_run (skipn (S i) s))).
  { rewrite Hsk; simpl; rewrite Hc; reflexivity. }
  rewrite Hrun.
  set (r := digit_run (skipn (S i) s)).
  rewrite star_digits.
  2: { pose proof (digit_run_le (skipn (S i) s)); rewrite length_skipn in *; unfold r; lia. }
  rewrite dfirst_last.
  2: { intros b Hb; unfold boundary.
       replace b with (S (i + (b - S i))) by lia.
       rewrite (digit_at s i (b - S i)) by (rewrite Hrun; unfold r in *; lia).
       replace (S (i + (b - S i))) with (i + S (b - S i)) by lia.
       rewrite (digit_at s i (S (b - S i))) by (rewrite Hrun; unfold r in *; lia).
       reflexivity. }
  assert (Hbi : boundary s i = negb (prev_word s i)).
  { unfold boundary, prev_word, word_at at 2; rewrite Hi, (digit_is_word c Hc).
    destruct i; [reflexivity|]; destruct (word_at s i); reflexivity. }
  assert (Hbe : boundary s (S i + r) = negb (word_at s (i + S r))).
  { unfold boundary; replace (S i + r) with (S (i + r)) by lia.
    rewrite (digit_at s i r) by (rewrite Hrun; lia).
    replace (S (i + r)) with (i + S r) by lia.
    destruct (word_at s (i + S r)); reflexivity. }
  fold r; rewrite Hbi, Hbe.
  replace (S i + r) with (i + S r) by lia.
  destruct (prev_word s i), (word_at s (i + S r)); reflexivity.
Qed.

Lemma find_ext_in {A} (f g : A -> bool) (l : list A) :
  (forall x, In x l -> f x = g x) -> find f l = find g l.
Proof.
  induction l as [|x l IH]; simpl; intros H; [reflexivity|].
  rewrite H by (now left); rewrite IH by (intros y Hy; apply H; now right).
  reflexivity.
Qed.

(** C7: [extract_number_strict] returns the first standalone run of digits
    of the text; when there is none, the value of the first word of the list
    one, two, ..., ten (in list order) that occurs as a whole word in the
    lowercased text; and nothing when there is neither.  For instance on
    "two or one" it returns "1": "one" comes first in the list although "two"
    comes first in the text. *)
Theorem extract_number_strict_spec (text : string) :
  extract_number_strict text = number_strict_spec text
  /\ extract_number_strict "two or one" = Some "1"%string.
Proof.
  split; [|vm_compute; reflexivity].
  unfold extract_number_strict, number_strict_spec, search, first_standalone_run.
  rewrite search_loop_find.
  rewrite (find_ext_in _ (standalone_at (chars text))).
  2: { intros x _; rewrite match_at_digits; destruct (standalone_at _ x); reflexivity. }
  destruct (find (standalone_at (chars text)) _) as [i|] eqn:Hfind.
  - apply find_some in Hfind as [_ Hst].
    rewrite match_at_digits, Hst; reflexivity.
  - rewrite (find_ext_in _ (fun wv => has_word (lower (chars text)) (fst wv))).
    + reflexivity.
    + intros wv Hin; apply found_word.
      simpl in Hin; repeat (destruct Hin as [<-|Hin]; [reflexivity|]); contradiction.
Qed.

(** ** Person names *)

Lemma upper_lower_pair_nth (l : list ascii) (i : nat) (a b : ascii) :
  upper_lower_pair l = false ->
  nth_error l i = Some a -> nth_error l (S i) = Some b ->
  is_upper a && is_lower b = false.
Proof.
  revert i; induction l as [|x l IH]; intros i Hl Ha Hb; [destruct i; discriminate|].
  destruct l as [|y l]; [destruct i as [|[|i]]; discriminate|].
  simpl in Hl; apply orb_false_iff in Hl as [Hxy Hl].
  destruct i as [|i]; simpl in Ha, Hb.
  - injection Ha as <-; injection Hb as <-; exact Hxy.
  - exact (IH i Hl Ha Hb).
Qed.

Lemma search_loop_none (s : list ascii) (r : regex) (a n : nat) :
  (forall i, match_at s r i = None) -> search_loop s r a n = None.
Proof.
  intros H; revert a; induction n as [|n IH]; intros a; simpl; [reflexivity|].
  rewrite H; apply IH.
Qed.

Lemma findall_none (s : list ascii) (r : regex) :
  (forall i, match_at s r i = None) -> findall s r = [].
Proof.
  intros H; unfold findall; cbn [findall_loop].
  rewrite search_loop_none by exact H; reflexivity.
Qed.

Lemma upper_lower_at (s : list ascii) (i : nat) (A : Type) (x : A)
  (k : ascii -> A) :
  upper_lower_pair s = false ->
  match nth_error s i with
  | Some c => if is_upper c then
                match nth_error s (S i) with
                | Some d => if is_lower d then k d else x
                | None => x
                end
              else x
  | None => x
  end = x.
Proof.
  intros Hs.
  destruct (nth_error s i) as [c|] eqn:Hc; [|reflexivity].
  destruct (is_upper c) eqn:Hu; [|reflexivity].
  destruct (nth_error s (S i)) as [d|] eqn:Hd; [|reflexivity].
  pose proof (upper_lower_pair_nth s i c d Hs Hc Hd) as H.
  rewrite Hu in H; simpl in H; rewrite H; reflexivity.
Qed.

Lemma match_at_full_name (s : list ascii) (i : nat) :
  upper_lower_pair s = false -> match_at s full_name_re i = None.
Proof.
  intros Hs; unfold match_at, full_name_re, plus, Up, Lo; cbn [mt].
  apply upper_lower_at, Hs.
Qed.

Lemma match_at_cap_word (s : list ascii) (i : nat) :
  upper_lower_pair s = false -> match_at s cap_word_re i = None.
Proof.
  intros Hs; unfold match_at, cap_word_re, plus, Up, Lo; cbn [mt].
  rewrite upper_lower_at by exact Hs; destruct (boundary s i); reflexivity.
Qed.

(** C10: a query with no uppercase letter immediately followed by a
    lowercase letter yields no person name, and the candidate filter then
    applies the location step only. *)
Theorem extract_person_names_no_capital (q : string) :
  upper_lower_pair (chars q) = false ->
  extract_person_names q = []
  /\ (forall candidates msgs,
        filter_candidates_by_entities candidates q msgs
        = filter_with [] (extract_locations q) candidates msgs).
Proof.
  intros Hq.
  assert (Hnames : extract_person_names q = []).
  { unfold extract_person_names.
    rewrite (findall_none _ full_name_re) by (intros i; apply match_at_full_name, Hq).
    rewrite (findall_none _ cap_word_re) by (intros i; apply match_at_cap_word, Hq).
    reflexivity. }
  split; [exact Hnames|].
  intros candidates msgs; unfold filter_candidates_by_entities; rewrite Hnames; reflexivity.
Qed.

Lemma extract_person_names_no_capital_witness :
  upper_lower_pair (chars "WHO IS ALICE? who is bob?") = false
  /\ extract_person_names "WHO IS ALICE? who is bob?" = [].
Proof.
  split; [vm_compute; reflexivity|].
  apply (extract_person_names_no_capital "WHO IS ALICE? who is bob?"); vm_compute; reflexivity.
Defined.

(** ** Candidate filter *)

Lemma py_index_ok {A} (xs : list A) (i : nat) (d : A) :
  i < List.length xs -> py_index xs i = Ok (nth i xs d).
Proof.
  intros Hi; unfold py_index.
  destruct (nth_error xs i) as [a|] eqn:Ha.
  - apply (nth_error_nth xs i d) in Ha; rewrite Ha; reflexivity.
  - apply nth_error_None in Ha; lia.
Qed.

Lemma filter_r_ok {A} (p : A -> result bool) (f : A -> bool) (l : list A) :
  (forall x, In x l -> p x = Ok (f x)) -> filter_r p l = Ok (filter f l).
Proof.
  induction l as [|x l IH]; simpl; intros H; [reflexivity|].
  rewrite H by (now left); simpl.
  rewrite IH by (intros y Hy; apply H; now right); simpl.
  reflexivity.
Qed.

Lemma filter_with_ok (persons locations : list string) (candidates : list nat)
  (msgs : list Message) :
  (forall i, In i candidates -> i < List.length msgs) ->
  filter_with persons locations candidates msgs
  = Ok (filter_spec persons locations candidates msgs).
Proof.
  intros Hin; unfold filter_with, filter_spec.
  set (f1 := match persons with
             | [] => candidates
             | _ :: _ =>
                 adopt (filter (fun i => any_in persons (user_name (nth i msgs dummy_message)))
                          candidates) candidates
             end).
  assert (Hf1 : (match persons with
                 | [] => Ok candidates
                 | _ :: _ =>
                     person_matches <-
                       filter_r (fun i => m <- py_index msgs i ;; Ok (any_in persons (user_name m)))
                         candidates ;;
                     Ok (match person_matches with [] => candidates | _ :: _ => person_matches end)
                 end) = Ok f1).
  { unfold f1; destruct persons as [|p ps]; [reflexivity|].
    rewrite (filter_r_ok _ (fun i => any_in (p :: ps) (user_name (nth i msgs dummy_message)))).
    - simpl; destruct (filter _ candidates); reflexivity.
    - intros x Hx; rewrite (py_index_ok msgs x dummy_message) by (apply Hin, Hx); reflexivity. }
  rewrite Hf1; simpl.
  assert (Hsub : forall i, In i f1 -> In i candidates).
  { intros i Hi; unfold f1, adopt in Hi; destruct persons; [exact Hi|].
    destruct (filter _ candidates) eqn:Hfl; [exact Hi|].
    rewrite <- Hfl in Hi; apply filter_In in Hi as [Hi _]; exact Hi. }
  assert (Hempty : f1 = [] -> candidates = []).
  { unfold f1, adopt; destruct persons; [tauto|].
    destruct (filter _ candidates); [tauto|discriminate]. }
  assert (Hfall : forall f : list nat, (f = [] -> candidates = []) ->
            match f with [] => candidates | _ :: _ => f end = f).
  { intros [|x f] Hf; [apply Hf; reflexivity|]; reflexivity. }
  destruct locations as [|l ls]; cbn [rbind negb andb].
  - rewrite Hfall by exact Hempty; reflexivity.
  - destruct (5 <? List.length f1) eqn:H5; cbn [rbind].
    + rewrite (filter_r_ok _ (fun i => any_in (l :: ls) (message (nth i msgs dummy_message)))).
      * cbn [rbind]; rewrite Hfall; [destruct (filter _ f1); reflexivity|].
        destruct (filter _ f1); [exact Hempty|intros H; discriminate H].
      * intros x Hx; rewrite (py_index_ok msgs x dummy_message) by (apply Hin, Hsub, Hx).
        reflexivity.
    + rewrite Hfall by exact Hempty; reflexivity.
Qed.

Lemma adopt_nonempty (restricted fallback : list nat) :
  fallback <> [] -> adopt restricted fallback <> [].
Proof. intros H; destruct restricted; [exact H|discriminate]. Qed.

Lemma filter_spec_nonempty (persons locations : list string) (candidates : list nat)
  (msgs : list Message) :
  candidates <> [] -> filter_spec persons locations candidates msgs <> [].
Proof.
  intros Hc; unfold filter_spec.
  destruct persons, locations; try destruct (5 <? _);
    repeat apply adopt_nonempty; exact Hc.
Qed.

(** C3 (as amended): for every non-empty candidate list whose indices are
    all positions of the message list, every query and every message list,
    [filter_candidates_by_entities] returns without exception a non-empty
    list: the person restriction is adopted only if non-empty, the location
    restriction is tried only on more than 5 candidates and adopted only if
    non-empty, and otherwise the candidates come back unchanged. *)
Theorem filter_candidates_nonempty (candidates : list nat) (q : string)
  (msgs : list Message) :
  candidates <> [] ->
  (forall i, In i candidates -> i < List.length msgs) ->
  filter_candidates_by_entities candidates q msgs
  = Ok (filter_spec (extract_person_names q) (extract_locations q) candidates msgs)
  /\ filter_spec (extract_person_names q) (extract_locations q) candidates msgs <> [].
Proof.
  intros Hne Hin; split.
  - apply filter_with_ok, Hin.
  - apply filter_spec_nonempty, Hne.
Qed.

Lemma filter_candidates_nonempty_witness :
  [0; 1] <> []
  /\ filter_candidates_by_entities [0; 1] "Where is Bob going?"
       [mkMessage "Alice" "Paris" (naive 1); mkMessage "Bob" "Tokyo" (naive 2)]%string = Ok [1].
Proof.
  split; [discriminate|].
  destruct (filter_candidates_nonempty [0; 1] "Where is Bob going?"
              [mkMessage "Alice" "Paris" (naive 1); mkMessage "Bob" "Tokyo" (naive 2)]%string)
    as [-> _].
  - discriminate.
  - simpl; intros i Hi; lia.
  - vm_compute; reflexivity.
Defined.

(** C3, counterexample: a candidate index outside the message list makes
    the person restriction raise [IndexError] instead of returning a list. *)
Lemma filter_candidates_out_of_range :
  filter_candidates_by_entities [5] "Where is Alice?" [] = Err IndexError.
Proof. vm_compute; reflexivity. Qed.

(** ** WHO questions *)

(** C9: once the index is built over a non-empty corpus (the library's
    scores have one entry per message) and the query has a token, a WHO
    question is answered, without touching the cache, by the speaker of the
    single top-ranked document, whatever the expanded and filtered
    candidates are, and for any [np.argsort] that meets numpy's contract. *)
Theorem who_answers_top_speaker (argsort : list Z -> list nat)
  (get_scores : BM25 -> list string -> list Z)
  (fromisoformat : string -> option datetime) (now : Z) (src : Source) (c : Cache)
  (q : string) (ix : BM25) :
  argsort_spec argsort ->
  c_bm25 c = Some ix ->
  c_messages c <> [] ->
  List.length (get_scores ix (tokenize q)) = List.length (c_messages c) ->
  tokenize q <> [] ->
  extract_question_type q = WHO ->
  exists i rest,
    top_k_indices argsort (get_scores ix (tokenize q)) = i :: rest
    /\ answer_question argsort get_scores fromisoformat now src q c
       = (Ok (user_name (nth i (c_messages c) dummy_message)), c, []).
Proof.
  intros Ha Hb Hne Hlen Htok Hwho.
  set (msgs := c_messages c) in *.
  set (scores := get_scores ix (tokenize q)) in *.
  assert (Hn : 0 < List.length msgs) by (destruct msgs; [contradiction|simpl; lia]).
  pose proof (top_k_indices_length argsort Ha scores) as Htlen.
  pose proof (top_k_indices_range argsort Ha scores) as Hrange.
  destruct (top_k_indices argsort scores) as [|i rest] eqn:Htop.
  { cbn [List.length] in Htlen; lia. }
  exists i, rest; split; [reflexivity|].
  assert (Hi : i < List.length msgs) by (rewrite <- Hlen; apply Hrange; now left).
  destruct (expand_context_spec (List.length msgs) 2 (i :: rest)) as [Hcr [Hcin _]].
  { intros idx Hidx; rewrite <- Hlen; apply Hrange, Hidx. }
  unfold answer_question, ensure_index, mbind, get_cache, lift.
  rewrite Hb; cbn [mret fst snd app].
  fold msgs; rewrite Hb.
  unfold answer_from.
  destruct (tokenize q) as [|t ts] eqn:Ht; [contradiction|].
  fold scores; rewrite Htop.
  destruct (expand_context (List.length msgs) 2 (i :: rest)) as [|c0 cs] eqn:Hcand.
  { destruct (Hcin i (or_introl eq_refl)). }
  rewrite (proj1 (filter_candidates_nonempty (c0 :: cs) q msgs ltac:(discriminate) Hcr)).
  cbn [rbind]; rewrite Hwho.
  rewrite (py_index_ok msgs i dummy_message Hi); reflexivity.
Qed.

Lemma who_answers_top_speaker_witness :
  tokenize "Who mentioned Paris?" <> []
  /\ exists i rest,
       top_k_indices stable_argsort [0; 0]%Z = i :: rest
       /\ answer_question stable_argsort (fun ix _ => map (fun _ => 0%Z) (bm25_corpus ix))
            (fun _ => None) 0 (mkSource None [])
            "Who mentioned Paris?"
            (mkCache [mkMessage "Alice" "Meeting in Paris on Monday" (naive 1);
                      mkMessage "Bob" "because the venue changed" (naive 2)]
                     [] (Some (mkBM25 [[]; []])))%string
          = (Ok (user_name (nth i [mkMessage "Alice" "Meeting in Paris on Monday" (naive 1);
                                   mkMessage "Bob" "because the venue changed" (naive 2)]%string
                            dummy_message)),
             mkCache [mkMessage "Alice" "Meeting in Paris on Monday" (naive 1);
                      mkMessage "Bob" "because the venue changed" (naive 2)]
                     [] (Some (mkBM25 [[]; []]))%string, []).
Proof.
  split; [vm_compute; discriminate|].
  apply (who_answers_top_speaker stable_argsort
           (fun ix _ => map (fun _ => 0%Z) (bm25_corpus ix))
           (fun _ => None) 0 (mkSource None [])
           (mkCache [mkMessage "Alice" "Meeting in Paris on Monday" (naive 1);
                     mkMessage "Bob" "because the venue changed" (naive 2)]
                    [] (Some (mkBM25 [[]; []])))%string
           "Who mentioned Paris?"%string (mkBM25 [[]; []])).
  - exact stable_argsort_spec.
  - reflexivity.
  - discriminate.
  - reflexivity.
  - vm_compute; discriminate.
  - vm_compute; reflexivity.
Defined.

(** ** Corpus acquisition and the cache *)

Lemma map_r_ok {A B} (f : A -> result B) (h : A -> B) (l : list A) :
  (forall x, In x l -> f x = Ok (h x)) -> map_r f l = Ok (map h l).
Proof.
  induction l as [|x l IH]; simpl; intros H; [reflexivity|].
  rewrite H by (now left); simpl.
  rewrite IH by (intros y Hy; apply H; now right); reflexivity.
Qed.


Lemma rbind_ok_inv {A B} (m : result A) (k : A -> result B) (b : B) :
  rbind m k = Ok b -> exists a, m = Ok a /\ k a = Ok b.
Proof. destruct m as [a|e]; simpl; [eauto|discriminate]. Qed.

Lemma rbind_err_inv {A B} (m : result A) (k : A -> result B) (e : exn) :
  rbind m k = Err e -> m = Err e \/ exists a, m = Ok a /\ k a = Err e.
Proof. destruct m as [a|e']; simpl; [eauto|intros H; injection H as ->; left; reflexivity]. Qed.

Lemma insert_by_sorted {A} (key : A -> Z) (x : A) (l : list A) :
  Sorted (fun a b => (key a <= key b)%Z) l ->
  Sorted (fun a b => (key a <= key b)%Z) (insert_by key x l).
Proof.
  induction l as [|y l IH]; intros Hs; simpl; [repeat constructor|].
  destruct (Z.ltb_spec (key x) (key y)) as [Hlt|Hge].
  - constructor; [exact Hs|constructor; lia].
  - apply Sorted_inv in Hs as [Hs Hhd].
    constructor; [apply IH, Hs|].
    destruct l as [|z l]; simpl; [constructor; lia|].
    apply HdRel_inv in Hhd.
    destruct (key x <? key z)%Z; constructor; lia.
Qed.

Lemma sort_by_sorted {A} (key : A -> Z) (l : list A) :
  Sorted (fun a b => (key a <= key b)%Z) (sort_by key l).
Proof.
  unfold sort_by.
  assert (Hgen : forall acc, Sorted (fun a b => (key a <= key b)%Z) acc ->
            Sorted (fun a b => (key a <= key b)%Z)
              (fold_left (fun acc x => insert_by key x acc) l acc)).
  { induction l as [|x l IH]; intros acc Hacc; simpl; [exact Hacc|].
    apply IH, insert_by_sorted, Hacc. }
  apply Hgen; constructor.
Qed.

Lemma map_r_forall2 {A B} (f : A -> result B) (l : list A) (ms : list B) :
  map_r f l = Ok ms -> Forall2 (fun x y => f x = Ok y) l ms.
Proof.
  revert ms; induction l as [|x l IH]; intros ms H; simpl in H.
  - injection H as <-; constructor.
  - apply rbind_ok_inv in H as [y [Hy H]].
    apply rbind_ok_inv in H as [ys [Hys H]]; injection H as <-.
    constructor; [exact Hy|apply IH, Hys].
Qed.

Lemma sorted_forall2 {A B} (ka : A -> Z) (kb : B -> Z) (R : A -> B -> Prop)
  (HR : forall x y, R x y -> kb y = ka x) (l : list A) (ms : list B) :
  Forall2 R l ms -> Sorted (fun a b => (ka a <= ka b)%Z) l ->
  Sorted (fun a b => (kb a <= kb b)%Z) ms.
Proof.
  induction 1 as [|x y l ms Hxy Hrest IH]; intros Hs; [constructor|].
  apply Sorted_inv in Hs as [Hs Hhd].
  constructor; [apply IH, Hs|].
  destruct Hrest as [|x' y' l' ms' Hxy' _]; constructor.
  apply HdRel_inv in Hhd; rewrite (HR _ _ Hxy), (HR _ _ Hxy'); exact Hhd.
Qed.

(** *** Python's sort on datetime keys *)

Lemma insert_r_same {A} (key : A -> datetime) (x : A) (l : list A) :
  (forall y, In y l -> dt_aware (key y) = dt_aware (key x)) ->
  insert_r key x l = Ok (insert_by (fun z => dt_value (key z)) x l).
Proof.
  induction l as [|y l IH]; intros H; cbn [insert_r insert_by]; [reflexivity|].
  unfold dt_lt; rewrite (H y (or_introl eq_refl)), Bool.eqb_reflx; cbn [rbind].
  destruct (dt_value (key x) <? dt_value (key y))%Z; [reflexivity|].
  rewrite IH by (intros z Hz; apply H; now right); reflexivity.
Qed.

Lemma sort_r_same {A} (key : A -> datetime) (b : bool) (l acc : list A) :
  (forall y, In y (l ++ acc) -> dt_aware (key y) = b) ->
  sort_r key l acc
  = Ok (fold_left (fun acc x => insert_by (fun z => dt_value (key z)) x acc) l acc).
Proof.
  revert acc; induction l as [|x l IH]; intros acc H; cbn [sort_r fold_left];
    [reflexivity|].
  rewrite insert_r_same; cbn [rbind].
  - apply IH; intros y Hy; apply in_app_or in Hy as [Hy|Hy]; apply H.
    + simpl; right; apply in_or_app; now left.
    + apply (Permutation_in _ (insert_by_perm _ x acc)) in Hy as [<-|Hy]; [now left|].
      simpl; right; apply in_or_app; now right.
  - intros y Hy; rewrite (H y), (H x); [reflexivity|now left|].
    simpl; right; apply in_or_app; now right.
Qed.

Lemma sort_r_mixed {A} (key : A -> datetime) (b : bool) (l acc : list A) :
  acc <> [] -> (forall y, In y acc -> dt_aware (key y) = b) ->
  (exists x, In x l /\ dt_aware (key x) <> b) ->
  sort_r key l acc = Err TypeError.
Proof.
  revert acc; induction l as [|x l IH]; intros acc Hne Hacc [z [Hz Hzb]];
    [destruct Hz|].
  cbn [sort_r].
  destruct acc as [|y acc']; [contradiction|].
  destruct (Bool.bool_dec (dt_aware (key x)) b) as [Hx|Hx].
  - rewrite insert_r_same by (intros w Hw; rewrite (Hacc w Hw); congruence).
    cbn [rbind]; apply IH.
    + intros Hnil.
      pose proof (Permutation_length
                    (insert_by_perm (fun z => dt_value (key z)) x (y :: acc'))) as HL.
      rewrite Hnil in HL; discriminate.
    + intros w Hw; apply (Permutation_in _ (insert_by_perm _ x _)) in Hw as [<-|Hw];
        [exact Hx|apply Hacc, Hw].
    + destruct Hz as [<-|Hz]; [contradiction|exists z; split; assumption].
  - cbn [insert_r]; unfold dt_lt; rewrite (Hacc y (or_introl eq_refl)).
    destruct (dt_aware (key x)), b; try contradiction; reflexivity.
Qed.

(** [py_sort] raises [TypeError] exactly when the keys are not all of one
    kind, and otherwise is the stable sort by value *)
Lemma py_sort_cases {A} (key : A -> datetime) (l : list A) :
  ((forall x y, In x l -> In y l -> dt_aware (key x) = dt_aware (key y))
   /\ py_sort key l = Ok (sort_by (fun z => dt_value (key z)) l))
  \/ ((exists x y, In x l /\ In y l /\ dt_aware (key x) <> dt_aware (key y))
      /\ py_sort key l = Err TypeError).
Proof.
  unfold py_sort, sort_by.
  destruct l as [|x l]; [left; split; [intros ? ? []|reflexivity]|].
  set (f := fun y => negb (Bool.eqb (dt_aware (key y)) (dt_aware (key x)))).
  destruct (existsb f l) eqn:Hex.
  - right; destruct (proj1 (existsb_exists _ _) Hex) as [y [Hy Hf]].
    unfold f in Hf; apply negb_true_iff, Bool.eqb_false_iff in Hf.
    split; [exists y, x; split; [right; exact Hy|split; [now left|exact Hf]]|].
    cbn [sort_r insert_r rbind].
    apply (sort_r_mixed key (dt_aware (key x))).
    + discriminate.
    + intros w [<-|[]]; reflexivity.
    + exists y; split; assumption.
  - assert (Hk : forall y, In y (x :: l) -> dt_aware (key y) = dt_aware (key x)).
    { intros y [<-|Hy]; [reflexivity|].
      destruct (f y) eqn:E.
      - exfalso; rewrite <- not_true_iff_false in Hex; apply Hex.
        apply existsb_exists; exists y; split; assumption.
      - unfold f in E; apply negb_false_iff, Bool.eqb_prop in E; exact E. }
    left; split.
    + intros y z Hy Hz; rewrite (Hk y Hy), (Hk z Hz); reflexivity.
    + apply (sort_r_same key (dt_aware (key x))); rewrite app_nil_r; exact Hk.
Qed.

Section Fetch.

Variable fromisoformat : string -> option datetime.
Variable now : Z.

Lemma messages_of_cases (prep : string -> string) (items : list RawItem) :
  ((forall x y, In x items -> In y items ->
      dt_aware (parse_ts fromisoformat now prep x)
      = dt_aware (parse_ts fromisoformat now prep y))
   /\ messages_of fromisoformat now prep items
      = map_r to_message
          (sort_by (fun p => dt_value (snd p))
             (map (fun it => (it, parse_ts fromisoformat now prep it)) items)))
  \/ ((exists x y, In x items /\ In y items
        /\ dt_aware (parse_ts fromisoformat now prep x)
           <> dt_aware (parse_ts fromisoformat now prep y))
      /\ messages_of fromisoformat now prep items = Err TypeError).
Proof.
  unfold messages_of.
  destruct (py_sort_cases snd (map (fun it => (it, parse_ts fromisoformat now prep it)) items))
    as [[Hk Hs]|[[p [p' [Hp [Hp' Hd]]]] Hs]]; rewrite Hs; cbn [rbind].
  - left; split; [|reflexivity].
    intros x y Hx Hy.
    exact (Hk _ _ (in_map (fun it => (it, parse_ts fromisoformat now prep it)) _ _ Hx)
                  (in_map (fun it => (it, parse_ts fromisoformat now prep it)) _ _ Hy)).
  - right; split; [|reflexivity].
    apply in_map_iff in Hp as [x [<- Hx]]; apply in_map_iff in Hp' as [y [<- Hy]].
    exists x, y; split; [exact Hx|split; [exact Hy|exact Hd]].
Qed.




Lemma messages_of_sorted (prep : string -> string) (items : list RawItem)
  (ms : list Message) :
  messages_of fromisoformat now prep items = Ok ms ->
  Sorted (fun a b => (dt_value (timestamp a) <= dt_value (timestamp b))%Z) ms.
Proof.
  destruct (messages_of_cases prep items) as [[_ ->]|[_ ->]]; [|discriminate].
  intros H; apply map_r_forall2 in H.
  eapply sorted_forall2; [|exact H|apply sort_by_sorted].
  intros [it t] m Hm; unfold to_message in Hm; simpl in Hm.
  destruct (r_user_name it), (r_message it); try discriminate.
  injection Hm as <-; reflexivity.
Qed.

End Fetch.


Lemma ensure_index_built (fromisoformat : string -> option datetime) (now : Z) (src : Source)
  (c : Cache) (ix : BM25) :
  c_bm25 c = Some ix -> ensure_index fromisoformat now src c = (Ok tt, c, []).
Proof.
  intros Hb; unfold ensure_index, mbind, get_cache; cbn beta iota; rewrite Hb; reflexivity.
Qed.




(** ** Refresh *)

(** C5 (amended): [refresh] is not atomic. It first writes an empty message
    list, then empty document tokens, then no index, each write on its own,
    so two mixed triples (new empty messages beside the old tokens and index)
    are observable before the cache is unbuilt; only then does it rebuild,
    one field at a time. When the rebuild fails, the exception propagates
    and the cache is left unbuilt, not restored. *)
Theorem refresh_trace (fromisoformat : string -> option datetime) (now : Z)
  (src : Source) (c : Cache) :
  refresh fromisoformat now src c =
  let c1 := mkCache [] (c_doc_tokens c) (c_bm25 c) in
  let c2 := mkCache [] [] (c_bm25 c) in
  match fetch_messages fromisoformat now src with
  | Err e => (Err e, empty_cache, [c1; c2; empty_cache])
  | Ok ms =>
      match build_index ms with
      | Err e => (Err e, empty_cache, [c1; c2; empty_cache])
      | Ok (dt, ix) =>
          (Ok "refreshed"%string, mkCache ms dt (Some ix),
           [c1; c2; empty_cache; mkCache ms [] None; mkCache ms dt None;
            mkCache ms dt (Some ix)])
      end
  end.
Proof.
  unfold refresh, ensure_index, mbind, get_cache, lift, mret,
    set_messages, set_doc_tokens, set_bm25.
  cbn beta iota zeta.
  destruct (fetch_messages fromisoformat now src) as [ms|e]; cbn beta iota;
    [|reflexivity].
  destruct (build_index ms) as [[dt ix]|e]; reflexivity.
Qed.

(** C5: a refresh whose source fails leaves a built cache unbuilt, and a
    reader could see the empty message list beside the old index. *)
Lemma refresh_failure_unbuilds :
  refresh (fun _ => None) 0
    (mkSource None [mkRawItem None (Some "hi") None]%string)
    (mkCache [mkMessage "Alice" "hi" (naive 1)] [["alice"; "hi"]]
             (Some (mkBM25 [["alice"; "hi"]])))%string
  = (Err KeyError, empty_cache,
     [mkCache [] [["alice"; "hi"]] (Some (mkBM25 [["alice"; "hi"]]));
      mkCache [] [] (Some (mkBM25 [["alice"; "hi"]]));
      empty_cache])%string
  /\ empty_cache <> (mkCache [mkMessage "Alice" "hi" (naive 1)] [["alice"; "hi"]]
                             (Some (mkBM25 [["alice"; "hi"]])))%string.
Proof. split; [vm_compute; reflexivity|discriminate]. Qed.

(** ** The WHICH and WHAT ARE branches *)

(** the argsort of a single score *)
Lemma argsort_single (argsort : list Z -> list nat) (z : Z) :
  argsort_spec argsort -> argsort [z] = [0].
Proof.
  intros Ha; destruct (Ha [z]) as [Hp _]; cbn in Hp.
  apply Permutation_sym, Permutation_length_1_inv in Hp; exact Hp.
Qed.

(** the pipeline reads [np.argsort] at the scores of the query only *)
Lemma answer_question_argsort_ext (a1 a2 : list Z -> list nat)
  (get_scores : BM25 -> list string -> list Z)
  (fromisoformat : string -> option datetime) (now : Z) (src : Source) (c : Cache)
  (ix : BM25) (q : string) :
  c_bm25 c = Some ix ->
  a1 (get_scores ix (tokenize q)) = a2 (get_scores ix (tokenize q)) ->
  answer_question a1 get_scores fromisoformat now src q c
  = answer_question a2 get_scores fromisoformat now src q c.
Proof.
  intros Hb Ha.
  unfold answer_question, mbind; rewrite (ensure_index_built _ _ _ _ _ Hb).
  unfold get_cache, lift; cbn beta iota; rewrite Hb.
  unfold answer_from, top_k_indices; cbv zeta; rewrite Ha; reflexivity.
Qed.

(** C1: the WHICH branch tests for [" at "] in the lowered message but splits
    the original message on [" at "]; a message with an upper-case [AT]
    passes the test and the split raises [IndexError], which escapes
    [answer_question]. The WHAT ARE branch has the same slip with
    [" are "]. This holds whatever order [np.argsort] gives, as long as it
    meets numpy's contract. *)
Theorem answer_question_case_slip_raises (argsort : list Z -> list nat) :
  argsort_spec argsort ->
  answer_question argsort (fun ix _ => map (fun _ => 0%Z) (bm25_corpus ix))
    (fun _ => None) 0 (mkSource None [])
    "Which place?"
    (mkCache [mkMessage "Alice" "Dinner AT Nobu" (naive 1)]
             [["alice"; "dinner"; "at"; "nobu"]]
             (Some (mkBM25 [["alice"; "dinner"; "at"; "nobu"]])))%string
  = (Err IndexError,
     mkCache [mkMessage "Alice" "Dinner AT Nobu" (naive 1)]
             [["alice"; "dinner"; "at"; "nobu"]]
             (Some (mkBM25 [["alice"; "dinner"; "at"; "nobu"]])), [])%string
  /\ answer_question argsort (fun ix _ => map (fun _ => 0%Z) (bm25_corpus ix))
       (fun _ => None) 0 (mkSource None [])
       "What are the plans?"
       (mkCache [mkMessage "Alice" "The plans ARE set" (naive 1)]
                [["alice"; "the"; "plans"; "are"; "set"]]
                (Some (mkBM25 [["alice"; "the"; "plans"; "are"; "set"]])))%string
     = (Err IndexError,
        mkCache [mkMessage "Alice" "The plans ARE set" (naive 1)]
                [["alice"; "the"; "plans"; "are"; "set"]]
                (Some (mkBM25 [["alice"; "the"; "plans"; "are"; "set"]])), [])%string.
Proof.
  intros Ha; split;
    (erewrite (answer_question_argsort_ext argsort stable_argsort);
     [vm_compute; reflexivity
     |reflexivity
     |vm_compute; rewrite (argsort_single argsort _ Ha); reflexivity]).
Qed.

Lemma answer_question_case_slip_raises_witness :
  argsort_spec stable_argsort
  /\ answer_question stable_argsort (fun ix _ => map (fun _ => 0%Z) (bm25_corpus ix))
       (fun _ => None) 0 (mkSource None [])
       "Which place?"
       (mkCache [mkMessage "Alice" "Dinner AT Nobu" (naive 1)]
                [["alice"; "dinner"; "at"; "nobu"]]
                (Some (mkBM25 [["alice"; "dinner"; "at"; "nobu"]])))%string
     = (Err IndexError,
        mkCache [mkMessage "Alice" "Dinner AT Nobu" (naive 1)]
                [["alice"; "dinner"; "at"; "nobu"]]
                (Some (mkBM25 [["alice"; "dinner"; "at"; "nobu"]])), [])%string.
Proof.
  split; [exact stable_argsort_spec|].
  exact (proj1 (answer_question_case_slip_raises stable_argsort stable_argsort_spec)).
Defined.

(** * Further properties of the code *)

(** ** The matcher: what a successful match guarantees *)

Lemma star_loop_cont (m : nat -> cap -> (nat -> cap -> option res) -> option res)
  (Hm : forall i g k x, m i g k = Some x -> exists j g', i <= j /\ k j g' = Some x)
  (k : nat -> cap -> option res) (f i : nat) (g : cap) (x : res) :
  star_loop m k f i g = Some x -> exists j g', i <= j /\ k j g' = Some x.
Proof.
  revert i g; induction f as [|f IH]; intros i g H; cbn [star_loop] in H.
  - exists i, g; split; [lia|exact H].
  - destruct (m i g _) as [y|] eqn:Hy.
    + injection H as ->.
      apply Hm in Hy as [j [g' [Hij Hk]]].
      destruct (Nat.eqb j i); [discriminate|].
      apply IH in Hk as [j2 [g2 [Hj2 Hk2]]].
      exists j2, g2; split; [lia|exact Hk2].
    + exists i, g; split; [lia|exact H].
Qed.

(** the continuation of a successful match is called at a position at or
    after the start *)
Lemma mt_cont (s : list ascii) (f : nat) (r : regex) :
  forall i g k x, mt s f r i g k = Some x -> exists j g', i <= j /\ k j g' = Some x.
Proof.
  induction r as [p| |r1 IH1 r2 IH2|r1 IH1 r2 IH2|r1 IH1| |r1 IH1];
    intros i g k x H; cbn [mt] in H.
  - destruct (nth_error s i) as [c|]; [|discriminate].
    destruct (p c); [|discriminate].
    exists (S i), g; split; [lia|exact H].
  - exists i, g; split; [lia|exact H].
  - apply IH1 in H as [j [g' [Hj H]]].
    apply IH2 in H as [j2 [g2 [Hj2 H]]].
    exists j2, g2; split; [lia|exact H].
  - destruct (mt s f r1 i g k) as [y|] eqn:Hy.
    + injection H as ->; exact (IH1 _ _ _ _ Hy).
    + exact (IH2 _ _ _ _ H).
  - exact (star_loop_cont _ IH1 k f i g x H).
  - destruct (boundary s i); [|discriminate].
    exists i, g; split; [lia|exact H].
  - apply IH1 in H as [j [g' [Hj H]]].
    exists j, (Some (i, j)); split; [exact Hj|exact H].
Qed.

Lemma star_class (p : ascii -> bool) (s : list ascii) (F : nat)
  (K : nat -> cap -> option res) (f i : nat) (g : cap) (x : res) :
  star_loop (mt s F (Chr p)) K f i g = Some x ->
  exists j, i <= j /\ class_span p s i j /\ K j g = Some x.
Proof.
  revert i; induction f as [|f IH]; intros i H; cbn [star_loop] in H.
  - exists i; split; [lia|split; [intros t Ht; lia|exact H]].
  - assert (E : forall k', mt s F (Chr p) i g k'
              = match nth_error s i with
                | Some c => if p c then k' (S i) g else None
                | None => None
                end) by reflexivity.
    rewrite E in H; clear E.
    destruct (nth_error s i) as [c|] eqn:Hc.
    2: { exists i; split; [lia|split; [intros t Ht; lia|exact H]]. }
    destruct (p c) eqn:Hp.
    2: { exists i; split; [lia|split; [intros t Ht; lia|exact H]]. }
    replace (S i =? i) with false in H by (symmetry; apply Nat.eqb_neq; lia).
    destruct (star_loop (mt s F (Chr p)) K f (S i) g) as [y|] eqn:Hy.
    + injection H as ->.
      apply IH in Hy as [j [Hj [Hspan HK]]].
      exists j; split; [lia|split; [|exact HK]].
      intros t Ht; destruct (Nat.eq_dec t i) as [->|Hne];
        [exists c; split; assumption|apply Hspan; lia].
    + exists i; split; [lia|split; [intros t Ht; lia|exact H]].
Qed.

Lemma plus_class (p : ascii -> bool) (s : list ascii) (F i : nat) (g : cap)
  (k : nat -> cap -> option res) (x : res) :
  mt s F (plus (Chr p)) i g k = Some x ->
  exists j, i < j /\ class_span p s i j /\ k j g = Some x.
Proof.
  unfold plus; cbn [mt]; intros H.
  destruct (nth_error s i) as [c|] eqn:Hc; [|discriminate].
  destruct (p c) eqn:Hp; [|discriminate].
  apply (star_class p s F) in H as [j [Hj [Hspan HK]]].
  exists j; split; [lia|split; [|exact HK]].
  intros t Ht; destruct (Nat.eq_dec t i) as [->|Hne];
    [exists c; split; assumption|apply Hspan; lia].
Qed.

Lemma star_loop_some (m : nat -> cap -> (nat -> cap -> option res) -> option res)
  (k : nat -> cap -> option res) (f i : nat) (g : cap) :
  (forall j g', k j g' <> None) -> star_loop m k f i g <> None.
Proof.
  intros Hk; revert i g; induction f as [|f IH]; intros i g; cbn [star_loop];
    [apply Hk|].
  destruct (m i g _); [discriminate|apply Hk].
Qed.

Lemma search_loop_some (s : list ascii) (r : regex) (a n i j : nat) (g : cap) :
  search_loop s r a n = Some (i, j, g) -> a <= i /\ match_at s r i = Some (j, g).
Proof.
  revert a; induction n as [|n IH]; intros a H; cbn [search_loop] in H; [discriminate|].
  destruct (match_at s r a) as [[j' g']|] eqn:Hm.
  - injection H as <- <- <-; split; [lia|exact Hm].
  - apply IH in H as [Ha H]; split; [lia|exact H].
Qed.

Lemma search_loop_hit (s : list ascii) (r : regex) (a n i : nat) :
  a <= i < a + n -> match_at s r i <> None -> search_loop s r a n <> None.
Proof.
  revert a; induction n as [|n IH]; intros a Hi Hm; [lia|cbn [search_loop]].
  destruct (match_at s r a) as [[j g]|] eqn:Ha; [discriminate|].
  destruct (Nat.eq_dec a i) as [->|Hne]; [contradiction|].
  apply IH; [lia|exact Hm].
Qed.

Lemma findall_loop_in (s : list ascii) (r : regex) (p f : nat) (t : list ascii) :
  In t (findall_loop s r p f) ->
  exists i j g, match_at s r i = Some (j, g) /\ t = slice s i j.
Proof.
  revert p; induction f as [|f IH]; intros p H; cbn [findall_loop] in H; [contradiction|].
  destruct (search_loop s r p _) as [[[i j] g]|] eqn:Hs; [|contradiction].
  destruct H as [<-|H].
  - apply search_loop_some in Hs as [_ Hm]; exists i, j, g; split; [exact Hm|reflexivity].
  - exact (IH _ H).
Qed.

Lemma findall_groups_loop_in (s : list ascii) (r : regex) (p f : nat) (t : list ascii) :
  In t (findall_groups_loop s r p f) ->
  exists i j g, match_at s r i = Some (j, g)
    /\ t = match g with Some (a, b) => slice s a b | None => [] end.
Proof.
  revert p; induction f as [|f IH]; intros p H; cbn [findall_groups_loop] in H;
    [contradiction|].
  destruct (search_loop s r p _) as [[[i j] g]|] eqn:Hs; [|contradiction].
  destruct H as [<-|H].
  - apply search_loop_some in Hs as [_ Hm]; exists i, j, g; split; [exact Hm|reflexivity].
  - exact (IH _ H).
Qed.

Lemma in_slice (s : list ascii) (i j : nat) (c : ascii) :
  In c (slice s i j) -> exists t, i <= t < j /\ nth_error s t = Some c.
Proof.
  unfold slice; intros H.
  apply In_nth_error in H as [n Hn].
  rewrite nth_error_firstn in Hn.
  destruct (Nat.ltb_spec n (j - i)); [|discriminate].
  rewrite nth_error_skipn in Hn.
  exists (i + n); split; [lia|exact Hn].
Qed.

Lemma slice_span_head (s : list ascii) (i j : nat) (c : ascii) :
  i < j -> nth_error s i = Some c -> exists rest, slice s i j = c :: rest.
Proof.
  intros Hij Hc; unfold slice.
  rewrite (skipn_nth_error s i), Hc.
  destruct (j - i) as [|n] eqn:Hn; [lia|].
  exists (firstn n (skipn (S i) s)); reflexivity.
Qed.

Lemma contains_app_r (p l1 l2 : list ascii) :
  contains p l2 = true -> contains p (l1 ++ l2) = true.
Proof.
  induction l1 as [|c l1 IH]; simpl; intros H; [exact H|].
  rewrite IH by exact H; apply orb_true_r.
Qed.

Lemma prefixb_app (p l : list ascii) : prefixb p (p ++ l) = true.
Proof.
  induction p as [|c p IH]; simpl; [reflexivity|].
  rewrite Ascii.eqb_refl, IH; reflexivity.
Qed.

Lemma contains_prefix (p l : list ascii) : contains p (p ++ l) = true.
Proof.
  pose proof (prefixb_app p l) as H; revert H.
  destruct (p ++ l); simpl; intros ->; reflexivity.
Qed.

Lemma contains_slice (s : list ascii) (i j : nat) : contains (slice s i j) s = true.
Proof.
  unfold slice.
  rewrite <- (firstn_skipn i s) at 2.
  apply contains_app_r.
  rewrite <- (firstn_skipn (j - i) (skipn i s)) at 2.
  apply contains_prefix.
Qed.

(** ** [tokenize] *)

Lemma is_word_lower_char (c : ascii) : is_word (lower_char c) = is_word c.
Proof. destruct c as [[] [] [] [] [] [] [] []]; reflexivity. Qed.

Lemma in_lower (l : list ascii) (c : ascii) :
  In c (lower l) -> exists d, In d l /\ c = lower_char d.
Proof.
  unfold lower; intros H; apply in_map_iff in H as [d [<- Hd]].
  exists d; split; [exact Hd|reflexivity].
Qed.

Lemma chars_str (l : list ascii) : chars (str l) = l.
Proof. apply list_ascii_of_string_of_list_ascii. Qed.

(** a match of a character class, read back as its characters *)
Lemma class_slice (p : ascii -> bool) (s : list ascii) (i j : nat) :
  i < j -> class_span p s i j ->
  slice s i j <> [] /\ forall c, In c (slice s i j) -> p c = true.
Proof.
  intros Hij Hspan; split.
  - destruct (Hspan i) as [c [Hc _]]; [lia|].
    destruct (slice_span_head s i j c Hij Hc) as [rest ->]; discriminate.
  - intros c Hc; apply in_slice in Hc as [t [Ht Hc]].
    destruct (Hspan t Ht) as [c' [Hc' Hp]]; congruence.
Qed.

Lemma findall_plus_W_nonempty (s : list ascii) (i : nat) (c : ascii) :
  nth_error s i = Some c -> is_word c = true -> findall s (plus W) <> [].
Proof.
  intros Hc Hw.
  assert (Hm : match_at s (plus W) i <> None).
  { unfold match_at, plus, W; cbn [mt]; rewrite Hc, Hw.
    apply star_loop_some; discriminate. }
  assert (Hi : i < List.length s) by (apply nth_error_Some; congruence).
  unfold findall; cbn [findall_loop]; rewrite Nat.sub_0_r.
  destruct (search_loop s (plus W) 0 (S (List.length s))) as [[[a b] g]|] eqn:Hs;
    [discriminate|].
  exfalso; revert Hs; apply (search_loop_hit _ _ _ _ i); [lia|exact Hm].
Qed.

Lemma tokenize_nil_no_word (text : string) :
  tokenize text = [] <-> (forall c, In c (chars text) -> is_word c = false).
Proof.
  unfold tokenize; split.
  - intros H c Hc.
    destruct (is_word c) eqn:Hw; [exfalso|reflexivity].
    apply map_eq_nil in H.
    apply (in_map lower_char) in Hc; apply In_nth_error in Hc as [i Hi].
    apply (findall_plus_W_nonempty _ i (lower_char c) Hi); [|exact H].
    rewrite is_word_lower_char; exact Hw.
  - intros H; rewrite findall_none; [reflexivity|].
    intros i; unfold match_at, plus, W; cbn [mt].
    destruct (nth_error (lower (chars text)) i) as [c|] eqn:Hc; [|reflexivity].
    apply nth_error_In, in_lower in Hc as [d [Hd ->]].
    rewrite is_word_lower_char, (H d Hd); reflexivity.
Qed.

(** ** Entity extraction *)

Lemma mt_seq_chr (s : list ascii) (f : nat) (p : ascii -> bool) (r : regex)
  (i : nat) (g : cap) (k : nat -> cap -> option res) :
  mt s f (Seq (Chr p) r) i g k
  = match nth_error s i with
    | Some c => if p c then mt s f r (S i) g k else None
    | None => None
    end.
Proof. reflexivity. Qed.

Lemma mt_seq_bnd (s : list ascii) (f : nat) (r : regex) (i : nat) (g : cap)
  (k : nat -> cap -> option res) :
  mt s f (Seq Bnd r) i g k = if boundary s i then mt s f r i g k else None.
Proof. reflexivity. Qed.

(** a match that begins with [[A-Z]] *)
Lemma match_at_upper_start (s : list ascii) (r : regex) (i j : nat) (g : cap) :
  match_at s (Seq Up r) i = Some (j, g) ->
  exists c, nth_error s i = Some c /\ is_upper c = true /\ i < j.
Proof.
  unfold match_at, Up; rewrite mt_seq_chr; intros H.
  destruct (nth_error s i) as [c|]; [|discriminate].
  destruct (is_upper c) eqn:Hu; [|discriminate].
  apply mt_cont in H as [j' [g' [Hj Hk]]]; injection Hk as -> _.
  exists c; split; [reflexivity|split; [exact Hu|lia]].
Qed.

Lemma is_question_word_false (n : list ascii) :
  is_question_word n = false -> ~ In (str (lower n)) QUESTION_WORDS.
Proof.
  unfold is_question_word; intros H Hin.
  assert (Ht : existsb (fun w => String.eqb (str (lower n)) w) QUESTION_WORDS = true).
  { apply existsb_exists; exists (str (lower n)); split; [exact Hin|apply String.eqb_refl]. }
  congruence.
Qed.

Lemma match_at_cap_upper (s : list ascii) (i j : nat) (g : cap) :
  match_at s cap_word_re i = Some (j, g) ->
  exists c, nth_error s i = Some c /\ is_upper c = true /\ i < j.
Proof.
  unfold match_at, cap_word_re; rewrite mt_seq_bnd; intros H.
  destruct (boundary s i); [|discriminate].
  exact (match_at_upper_start s _ i j g H).
Qed.

Lemma person_name_shape (s : list ascii) (r : regex) (l : list ascii) :
  (forall i j g, match_at s r i = Some (j, g) ->
     exists c, nth_error s i = Some c /\ is_upper c = true /\ i < j) ->
  In l (filter (fun n => negb (is_question_word n)) (findall s r)) ->
  (exists c rest, l = c :: rest /\ is_upper c = true)
  /\ contains l s = true /\ ~ In (str (lower l)) QUESTION_WORDS.
Proof.
  intros Hr H; apply filter_In in H as [H Hq].
  apply negb_true_iff, is_question_word_false in Hq.
  apply findall_loop_in in H as [i [j [g [Hm ->]]]].
  apply Hr in Hm as [c [Hc [Hu Hij]]].
  destruct (slice_span_head s i j c Hij Hc) as [rest Hrest].
  split; [exists c, rest; split; [exact Hrest|exact Hu]|].
  split; [apply contains_slice|exact Hq].
Qed.

(** Locations *)

Lemma mt_alts_lit (s : list ascii) (f : nat) (d : list (string * string)) :
  forall i g k x,
  mt s f (alts (map (fun wv => lit (chars (fst wv))) d)) i g k = Some x ->
  exists wv, In wv d /\ prefixb (chars (fst wv)) (skipn i s) = true
             /\ k (i + List.length (chars (fst wv))) g = Some x.
Proof.
  induction d as [|wv d IH]; intros i g k x H.
  - cbn in H; destruct (nth_error s i); discriminate.
  - destruct d as [|wv2 d].
    + cbn [map alts] in H; rewrite mt_lit in H.
      destruct (prefixb _ _) eqn:Hp; [|discriminate].
      exists wv; split; [now left|split; assumption].
    + change (alts (map (fun wv => lit (chars (fst wv))) (wv :: wv2 :: d)))
        with (Alt (lit (chars (fst wv))) (alts (map (fun wv => lit (chars (fst wv))) (wv2 :: d))))
        in H.
      cbn [mt] in H; rewrite mt_lit in H.
      destruct (prefixb (chars (fst wv)) (skipn i s)) eqn:Hp.
      * destruct (k _ g) as [y|] eqn:Hk.
        -- injection H as ->; exists wv; split; [now left|split; assumption].
        -- apply IH in H as [wv' [Hin H]]; exists wv'; split; [now right|exact H].
      * apply IH in H as [wv' [Hin H]]; exists wv'; split; [now right|exact H].
Qed.

Lemma prefixb_firstn (w l : list ascii) :
  prefixb w l = true -> firstn (List.length w) l = w.
Proof.
  revert l; induction w as [|c w IH]; intros l H; [reflexivity|].
  destruct l as [|d l]; [discriminate|].
  simpl in H; apply andb_prop in H as [Hcd H].
  apply Ascii.eqb_eq in Hcd; subst d; simpl; rewrite IH by exact H; reflexivity.
Qed.

Lemma match_at_num_words (s : list ascii) (i j : nat) (g : cap) :
  match_at s num_words_re i = Some (j, g) ->
  exists wv, In wv word_to_num
    /\ g = Some (i, i + List.length (chars (fst wv)))
    /\ slice s i (i + List.length (chars (fst wv))) = chars (fst wv).
Proof.
  unfold match_at, num_words_re; rewrite mt_seq_bnd; intros H.
  destruct (boundary s i); [|discriminate].
  cbn [mt] in H.
  apply mt_alts_lit in H as [wv [Hin [Hp H]]].
  destruct (boundary s _); [|discriminate].
  injection H as _ <-.
  exists wv; split; [exact Hin|split; [reflexivity|]].
  unfold slice; replace (i + List.length (chars (fst wv)) - i)
    with (List.length (chars (fst wv))) by lia.
  apply prefixb_firstn, Hp.
Qed.

Lemma word_to_num_digits (wv : string * string) :
  In wv word_to_num ->
  dict_get word_to_num (fst wv) = Ok (snd wv)
  /\ chars (snd wv) <> [] /\ (forall c, In c (chars (snd wv)) -> is_digit c = true).
Proof.
  intros H; repeat (destruct H as [<-|H];
    [split; [reflexivity|split; [discriminate|]];
     intros c Hc; repeat (destruct Hc as [<-|Hc]; [reflexivity|]); destruct Hc|]).
  destruct H.
Qed.

Lemma digits_group (s : list ascii) (i j : nat) (g : cap) :
  match_at s digits_re i = Some (j, g) ->
  match g with Some (a, b) => slice s a b | None => [] end <> []
  /\ forall c, In c (match g with Some (a, b) => slice s a b | None => [] end) ->
       is_digit c = true.
Proof.
  rewrite match_at_digits; intros H.
  destruct (standalone_at s i) eqn:Hst; [|discriminate].
  injection H as _ <-.
  unfold standalone_at in Hst; apply andb_prop in Hst as [Hst _].
  apply andb_prop in Hst as [_ Hpos]; apply Nat.ltb_lt in Hpos.
  apply class_slice; [lia|].
  intros t Ht.
  destruct (digit_run_nth (skipn i s) (t - i)) as [c [Hc Hd]]; [lia|].
  rewrite nth_error_skipn in Hc; replace (i + (t - i)) with t in Hc by lia.
  exists c; split; assumption.
Qed.

(** Every name [extract_person_names] returns begins with an uppercase
    letter, occurs in the query as written, and is not (lowercased) one of
    the [QUESTION_WORDS]. *)
Theorem extract_person_names_shape (q n : string) :
  In n (extract_person_names q) ->
  (exists c rest, chars n = c :: rest /\ is_upper c = true)
  /\ contains (chars n) (chars q) = true
  /\ ~ In (str (lower (chars n))) QUESTION_WORDS.
Proof.
  unfold extract_person_names; intros H.
  destruct (filter _ (findall (chars q) full_name_re)) as [|a l] eqn:Hf.
  - apply in_map_iff in H as [l' [<- Hl]]; rewrite chars_str.
    exact (person_name_shape _ _ _ (match_at_cap_upper _) Hl).
  - rewrite <- Hf in H; apply in_map_iff in H as [l' [<- Hl]]; rewrite chars_str.
    exact (person_name_shape _ _ _ (match_at_upper_start _ _) Hl).
Qed.

(** [extract_numbers] never raises (every number word found is a key of
    [word_to_num]) and returns non-empty strings of decimal digits: the
    groups of the digit runs, then the values of the number words. *)
Theorem extract_numbers_digits (text : string) :
  exists ns, extract_numbers text = Ok ns
  /\ forall n, In n ns -> chars n <> [] /\ (forall c, In c (chars n) -> is_digit c = true).
Proof.
  unfold extract_numbers.
  set (words := map str (findall_groups (lower (chars text)) num_words_re)).
  assert (Hw : forall w, In w words -> exists wv, In wv word_to_num /\ w = fst wv).
  { intros w Hw; unfold words in Hw; apply in_map_iff in Hw as [l [<- Hl]].
    apply findall_groups_loop_in in Hl as [i [j [g [Hm ->]]]].
    apply match_at_num_words in Hm as [wv [Hin [-> Hsl]]].
    exists wv; split; [exact Hin|]; rewrite Hsl.
    apply string_of_list_ascii_of_string. }
  rewrite (map_r_ok _ (fun w => match dict_get word_to_num w with Ok v => v | Err _ => ""%string end)).
  - eexists; split; [reflexivity|].
    intros n Hn; apply in_app_or in Hn as [Hn|Hn].
    + apply in_map_iff in Hn as [l [<- Hl]]; rewrite chars_str.
      apply findall_groups_loop_in in Hl as [i [j [g [Hm ->]]]].
      exact (digits_group _ _ _ _ Hm).
    + apply in_map_iff in Hn as [w [<- Hin]].
      destruct (Hw w Hin) as [wv [Hwv ->]].
      destruct (word_to_num_digits wv Hwv) as [-> Hd]; exact Hd.
  - intros w Hin; destruct (Hw w Hin) as [wv [Hwv ->]].
    destruct (word_to_num_digits wv Hwv) as [-> _]; reflexivity.
Qed.

(** ** The candidate filter and the answer dispatch *)

Lemma py_index_in {A} (xs : list A) (i : nat) (a : A) :
  py_index xs i = Ok a -> In a xs.
Proof.
  unfold py_index; destruct (nth_error xs i) eqn:Hi; [|discriminate].
  intros H; injection H as <-; exact (nth_error_In _ _ Hi).
Qed.

Lemma filter_r_as_filter {A} (p : A -> result bool) (l r : list A) :
  filter_r p l = Ok r ->
  r = filter (fun y => match p y with Ok b => b | Err _ => false end) l.
Proof.
  revert r; induction l as [|x l IH]; intros r H; simpl in *.
  - injection H as <-; reflexivity.
  - apply rbind_ok_inv in H as [b [Hb H]].
    apply rbind_ok_inv in H as [rest [Hrest H]].
    injection H as <-; rewrite Hb, <- (IH rest Hrest); reflexivity.
Qed.

Lemma filter_with_sublist (persons locations : list string) (candidates r : list nat)
  (msgs : list Message) :
  filter_with persons locations candidates msgs = Ok r ->
  exists f, r = filter f candidates.
Proof.
  unfold filter_with; cbn beta zeta; intros H.
  apply rbind_ok_inv in H as [f1 [H1 H]].
  assert (Hf1 : exists f, f1 = filter f candidates).
  { destruct persons as [|p ps].
    - injection H1 as <-; exists (fun _ => true).
      symmetry; apply filter_all_true_nat; reflexivity.
    - apply rbind_ok_inv in H1 as [pm [Hpm H1]]; injection H1 as <-.
      apply filter_r_as_filter in Hpm; destruct pm as [|x pm].
      + exists (fun _ => true); symmetry; apply filter_all_true_nat; reflexivity.
      + rewrite Hpm; eexists; reflexivity. }
  destruct Hf1 as [g ->].
  apply rbind_ok_inv in H as [f2 [H2 H]]; injection H as <-.
  assert (Hf2 : exists f, f2 = filter f candidates).
  { destruct (negb _ && _).
    - apply rbind_ok_inv in H2 as [lm [Hlm H2]]; injection H2 as <-.
      apply filter_r_as_filter in Hlm; destruct lm as [|x lm].
      + exists g; reflexivity.
      + rewrite Hlm, filter_filter_nat; eexists; reflexivity.
    - injection H2 as <-; exists g; reflexivity. }
  destruct Hf2 as [h ->].
  destruct (filter h candidates) eqn:Hh.
  - exists (fun _ => true); symmetry; apply filter_all_true_nat; reflexivity.
  - exists h; exact (eq_sym Hh).
Qed.

Lemma first_r_some (f : nat -> result (option string)) (l : list nat) (a : string) :
  first_r f l = Ok (Some a) -> exists i, In i l /\ f i = Ok (Some a).
Proof.
  induction l as [|i l IH]; simpl; intros H; [discriminate|].
  apply rbind_ok_inv in H as [r [Hr H]].
  destruct r as [b|].
  - injection H as ->; exists i; split; [now left|exact Hr].
  - apply IH in H as [j [Hj H]]; exists j; split; [now right|exact H].
Qed.

Lemma first_r_err (f : nat -> result (option string)) (l : list nat) (e : exn) :
  first_r f l = Err e -> exists i, In i l /\ f i = Err e.
Proof.
  induction l as [|i l IH]; simpl; intros H; [discriminate|].
  apply rbind_err_inv in H as [H|[r [Hr H]]].
  - exists i; split; [now left|exact H].
  - destruct r; [discriminate|].
    apply IH in H as [j [Hj H]]; exists j; split; [now right|exact H].
Qed.

Lemma after_first_contains (sep s a : list ascii) :
  after_first sep s = Some a -> contains a s = true.
Proof.
  induction s as [|c s IH]; intros H; simpl in H.
  - destruct (prefixb sep []); [|discriminate].
    injection H as <-; rewrite skipn_nil; reflexivity.
  - destruct (prefixb sep (c :: s)).
    + injection H as <-.
      rewrite <- (firstn_skipn (List.length sep) (c :: s)) at 2.
      apply contains_app_r.
      rewrite <- (app_nil_r (skipn _ _)) at 2; apply contains_prefix.
    + apply IH in H; simpl; rewrite H; apply orb_true_r.
Qed.

Lemma split_after_ok (sep msg a : string) :
  split_after sep msg = Ok a -> contains (chars a) (chars msg) = true.
Proof.
  unfold split_after; destruct (after_first _ _) as [l|] eqn:Hl; [|discriminate].
  intros H; injection H as <-; rewrite chars_str.
  exact (after_first_contains _ _ _ Hl).
Qed.

Lemma split_after_err (sep msg : string) (e : exn) :
  split_after sep msg = Err e -> e = IndexError.
Proof.
  unfold split_after; destruct (after_first _ _); [discriminate|].
  intros H; injection H as <-; reflexivity.
Qed.

Lemma expand_context_range (n w : nat) (top : list nat) (j : nat) :
  In j (expand_context n w top) -> j < n.
Proof.
  rewrite expand_context_as_dedup; intros Hj.
  apply in_dedup_first, in_flat_map in Hj as [idx [_ Hj]].
  apply in_get_context in Hj; lia.
Qed.

(** [filter_candidates_by_entities], when it returns, returns a
    subsequence of its candidates: no index is added, none repeated, the
    order is kept. *)
Theorem filter_candidates_sublist (candidates r : list nat) (q : string)
  (msgs : list Message) :
  filter_candidates_by_entities candidates q msgs = Ok r ->
  exists f, r = filter f candidates.
Proof. apply filter_with_sublist. Qed.

(** When the scores of the index have one entry per cached message, the
    only exception [answer_question] can raise after [ensure_index] is the
    [IndexError] of [msg.split(...)[1]], and only for WHICH and WHAT_ARE
    questions: every index the pipeline reads [msgs] at is in range (for
    any [np.argsort] that meets numpy's contract). *)
Theorem answer_from_errors (argsort : list Z -> list nat)
  (get_scores : BM25 -> list string -> list Z)
  (msgs : list Message) (bm25 : option BM25) (q : string) (e : exn) :
  argsort_spec argsort ->
  (forall ix, bm25 = Some ix -> List.length (get_scores ix (tokenize q)) = List.length msgs) ->
  answer_from argsort get_scores msgs bm25 q = Err e ->
  e = IndexError
  /\ (extract_question_type q = WHICH \/ extract_question_type q = WHAT_ARE).
Proof.
  intros Ha Hlen H; unfold answer_from in H; cbv zeta in H.
  destruct bm25 as [ix|]; [|discriminate].
  specialize (Hlen ix eq_refl).
  destruct (tokenize q) as [|t ts] eqn:Ht; [discriminate|].
  assert (Htop : forall i, In i (top_k_indices argsort (get_scores ix (t :: ts))) ->
                   i < List.length msgs)
    by (intros i Hi; rewrite <- Hlen; apply (top_k_indices_range argsort Ha), Hi).
  destruct (expand_context (List.length msgs) 2
              (top_k_indices argsort (get_scores ix (t :: ts))))
    as [|c0 cs] eqn:Hc; [discriminate|].
  assert (Hcr : forall j, In j (c0 :: cs) -> j < List.length msgs)
    by (rewrite <- Hc; apply expand_context_range).
  apply rbind_err_inv in H as [H|[cand [Hf H]]].
  { unfold filter_candidates_by_entities in H; rewrite filter_with_ok in H by exact Hcr.
    discriminate. }
  assert (Hr : forall j, In j cand -> j < List.length msgs).
  { apply filter_with_sublist in Hf as [f ->].
    intros j Hj; apply filter_In in Hj as [Hj _]; apply Hcr, Hj. }
  destruct (extract_question_type q) eqn:Hq; cbv beta iota in H.
  - destruct (top_k_indices _) as [|i rest]; [discriminate|].
    rewrite (py_index_ok msgs i dummy_message) in H by (apply Htop; now left).
    discriminate.
  - apply rbind_err_inv in H as [H|[r [_ H]]].
    + apply first_r_err in H as [i [Hi H]].
      rewrite (py_index_ok msgs i dummy_message) in H by (apply Hr, Hi); discriminate.
    + destruct r; [discriminate|]; destruct (extract_person_names q); discriminate.
  - apply rbind_err_inv in H as [H|[r [_ H]]]; [|discriminate].
    apply first_r_err in H as [i [Hi H]].
    rewrite (py_index_ok msgs i dummy_message) in H by (apply Hr, Hi); discriminate.
  - apply rbind_err_inv in H as [H|[r [_ H]]]; [|discriminate].
    apply first_r_err in H as [i [Hi H]].
    rewrite (py_index_ok msgs i dummy_message) in H by (apply Hr, Hi); discriminate.
  - apply rbind_err_inv in H as [H|[r [_ H]]]; [|discriminate].
    apply first_r_err in H as [i [Hi H]].
    rewrite (py_index_ok msgs i dummy_message) in H by (apply Hr, Hi); cbn [rbind] in H.
    destruct (contains _ _); [|discriminate].
    apply rbind_err_inv in H as [H|[a [_ H]]]; [|discriminate].
    split; [exact (split_after_err _ _ _ H)|now right].
  - apply rbind_err_inv in H as [H|[r [_ H]]]; [|discriminate].
    apply first_r_err in H as [i [Hi H]].
    rewrite (py_index_ok msgs i dummy_message) in H by (apply Hr, Hi); cbn [rbind] in H.
    destruct (contains _ _); [|discriminate].
    apply rbind_err_inv in H as [H|[a [_ H]]]; [|discriminate].
    split; [exact (split_after_err _ _ _ H)|now left].
  - apply rbind_err_inv in H as [H|[r [_ H]]]; [|discriminate].
    apply first_r_err in H as [i [Hi H]].
    rewrite (py_index_ok msgs i dummy_message) in H by (apply Hr, Hi); discriminate.
  - destruct cand as [|i rest].
    + destruct (top_k_indices _) as [|i rest]; [discriminate|].
      rewrite (py_index_ok msgs i dummy_message) in H by (apply Htop; now left).
      discriminate.
    + rewrite (py_index_ok msgs i dummy_message) in H by (apply Hr; now left).
      discriminate.
Qed.

(** Every answer other than NOT_FOUND is read off a cached message: the
    speaker of a message (WHO); the text of a message that has a date
    (WHEN) or contains "because" (WHY), or any message text (GENERIC); a
    piece of a message text (WHERE, WHICH, WHAT_ARE); the number
    [extract_number_strict] finds in a message (HOW_MANY). *)
Theorem answer_from_grounded (argsort : list Z -> list nat)
  (get_scores : BM25 -> list string -> list Z)
  (msgs : list Message) (bm25 : option BM25) (q a : string) :
  answer_from argsort get_scores msgs bm25 q = Ok a ->
  a = NOT_FOUND_ANSWER
  \/ exists m, In m msgs /\
     match extract_question_type q with
     | WHO => a = user_name m
     | WHEN => a = message m /\ has_date a = true
     | WHERE | WHICH | WHAT_ARE => contains (chars a) (chars (message m)) = true
     | HOW_MANY => extract_number_strict (message m) = Some a /\ a <> ""%string
     | WHY => a = message m /\ contains (chars "because") (lower (chars a)) = true
     | GENERIC => a = message m
     end.
Proof.
  intros H; unfold answer_from in H; cbv zeta in H.
  destruct bm25 as [ix|]; [|injection H as <-; now left].
  destruct (tokenize q) as [|t ts]; [injection H as <-; now left|].
  destruct (expand_context _ 2 _) as [|c0 cs]; [injection H as <-; now left|].
  apply rbind_ok_inv in H as [cand [_ H]].
  destruct (extract_question_type q); cbv beta iota in H |- *.
  - destruct (top_k_indices _) as [|i rest]; [injection H as <-; now left|].
    apply rbind_ok_inv in H as [m [Hm H]]; injection H as <-.
    right; exists m; split; [exact (py_index_in _ _ _ Hm)|reflexivity].
  - apply rbind_ok_inv in H as [r [Hr H]].
    destruct r as [b|].
    + injection H as <-.
      apply first_r_some in Hr as [i [_ Hi]].
      apply rbind_ok_inv in Hi as [m [Hm Hi]].
      destruct (has_date (message m)) eqn:Hd; [|discriminate].
      injection Hi as <-.
      right; exists m; split; [exact (py_index_in _ _ _ Hm)|split; [reflexivity|exact Hd]].
    + destruct (extract_person_names q); [injection H as <-; now left|].
      injection H as <-.
      destruct (find _ msgs) as [m|] eqn:Hf; [|now left].
      apply find_some in Hf as [Hin Hp].
      apply andb_prop in Hp as [Hp _]; apply andb_prop in Hp as [_ Hd].
      right; exists m; split; [exact Hin|split; [reflexivity|exact Hd]].
  - apply rbind_ok_inv in H as [r [Hr H]]; injection H as <-.
    destruct r as [b|]; cbn [or_not_found]; [|now left].
    apply first_r_some in Hr as [i [_ Hi]].
    apply rbind_ok_inv in Hi as [m [Hm Hi]].
    right; exists m; split; [exact (py_index_in _ _ _ Hm)|].
    destruct (search _ loc_regex) as [[[x y] [[u v]|]]|]; try discriminate.
    injection Hi as <-; cbn; rewrite chars_str; apply contains_slice.
  - apply rbind_ok_inv in H as [r [Hr H]]; injection H as <-.
    destruct r as [b|]; cbn [or_not_found]; [|now left].
    apply first_r_some in Hr as [i [_ Hi]].
    apply rbind_ok_inv in Hi as [m [Hm Hi]].
    right; exists m; split; [exact (py_index_in _ _ _ Hm)|].
    destruct (match search _ noun_regex with Some mm => _ | None => None end)
      as [[|c n]|]; try discriminate.
    destruct (contains _ _); [|discriminate].
    destruct (extract_number_strict (message m)) as [num|]; [|discriminate].
    destruct (String.eqb num "") eqn:He; [discriminate|].
    injection Hi as <-; split; [reflexivity|].
    intros ->; discriminate.
  - apply rbind_ok_inv in H as [r [Hr H]]; injection H as <-.
    destruct r as [b|]; cbn [or_not_found]; [|now left].
    apply first_r_some in Hr as [i [_ Hi]].
    apply rbind_ok_inv in Hi as [m [Hm Hi]].
    right; exists m; split; [exact (py_index_in _ _ _ Hm)|].
    destruct (contains _ _); [|discriminate].
    apply rbind_ok_inv in Hi as [a [Ha Hi]]; injection Hi as <-.
    exact (split_after_ok _ _ _ Ha).
  - apply rbind_ok_inv in H as [r [Hr H]]; injection H as <-.
    destruct r as [b|]; cbn [or_not_found]; [|now left].
    apply first_r_some in Hr as [i [_ Hi]].
    apply rbind_ok_inv in Hi as [m [Hm Hi]].
    right; exists m; split; [exact (py_index_in _ _ _ Hm)|].
    destruct (contains _ _); [|discriminate].
    apply rbind_ok_inv in Hi as [a [Ha Hi]]; injection Hi as <-.
    exact (split_after_ok _ _ _ Ha).
  - apply rbind_ok_inv in H as [r [Hr H]]; injection H as <-.
    destruct r as [b|]; cbn [or_not_found]; [|now left].
    apply first_r_some in Hr as [i [_ Hi]].
    apply rbind_ok_inv in Hi as [m [Hm Hi]].
    right; exists m; split; [exact (py_index_in _ _ _ Hm)|].
    destruct (contains _ (lower (chars (message m)))) eqn:Hb; [|discriminate].
    injection Hi as <-; split; [reflexivity|exact Hb].
  - destruct cand as [|i rest].
    + destruct (top_k_indices _) as [|i rest]; [injection H as <-; now left|].
      apply rbind_ok_inv in H as [m [Hm H]]; injection H as <-.
      right; exists m; split; [exact (py_index_in _ _ _ Hm)|reflexivity].
    + apply rbind_ok_inv in H as [m [Hm H]]; injection H as <-.
      right; exists m; split; [exact (py_index_in _ _ _ Hm)|reflexivity].
Qed.

(** ** Corpus, index and cache *)



(** Whenever [fetch_messages] returns, its messages are in non-decreasing
    timestamp order (all of them naive, or all aware: a mix makes the sort
    raise). *)
Theorem fetch_messages_sorted (fromisoformat : string -> option datetime) (now : Z)
  (src : Source) (ms : list Message) :
  fetch_messages fromisoformat now src = Ok ms ->
  Sorted (fun a b => (dt_value (timestamp a) <= dt_value (timestamp b))%Z) ms.
Proof.
  unfold fetch_messages; cbv zeta.
  destruct (local_items src) as [[|it items]|]; try apply messages_of_sorted.
  destruct (messages_of fromisoformat now strip_utc (it :: items)) eqn:Hl.
  - intros H; injection H as <-; exact (messages_of_sorted _ _ _ _ _ Hl).
  - apply messages_of_sorted.
Qed.


(** On a cache that holds an index, [answer_question] fetches nothing and
    writes nothing: it answers from the cached messages and index, and a
    question without a word character is answered NOT_FOUND. *)
Theorem answer_question_built (argsort : list Z -> list nat)
  (get_scores : BM25 -> list string -> list Z)
  (fromisoformat : string -> option datetime) (now : Z) (src : Source) (c : Cache)
  (ix : BM25) (q : string) :
  c_bm25 c = Some ix ->
  answer_question argsort get_scores fromisoformat now src q c
  = (answer_from argsort get_scores (c_messages c) (Some ix) q, c, [])
  /\ ((forall ch, In ch (chars q) -> is_word ch = false) ->
      answer_question argsort get_scores fromisoformat now src q c = (Ok NOT_FOUND_ANSWER, c, [])).
Proof.
  intros Hb.
  assert (Heq : answer_question argsort get_scores fromisoformat now src q c
                = (answer_from argsort get_scores (c_messages c) (Some ix) q, c, [])).
  { unfold answer_question, mbind; rewrite (ensure_index_built _ _ _ _ _ Hb).
    unfold get_cache, lift; cbn beta iota; rewrite Hb; reflexivity. }
  split; [exact Heq|].
  intros Hq; rewrite Heq; unfold answer_from.
  apply tokenize_nil_no_word in Hq; rewrite Hq; reflexivity.
Qed.

(** After [ensure_index] succeeds the cache holds an index, so a second
    call (with any source) does nothing. *)
Theorem ensure_index_idempotent (fromisoformat : string -> option datetime) (now : Z)
  (src src' : Source) (c c' : Cache) (t : list Cache) :
  ensure_index fromisoformat now src c = (Ok tt, c', t) ->
  c_bm25 c' <> None /\ ensure_index fromisoformat now src' c' = (Ok tt, c', []).
Proof.
  intros H.
  assert (Hb : c_bm25 c' <> None).
  { revert H; unfold ensure_index, mbind, get_cache, lift, mret,
      set_messages, set_doc_tokens, set_bm25; cbn beta iota zeta.
    destruct (c_bm25 c) as [ix|] eqn:Hc.
    - intros H; injection H as <- _; rewrite Hc; discriminate.
    - destruct (fetch_messages fromisoformat now src) as [ms|e]; cbn beta iota;
        [|discriminate].
      destruct (build_index ms) as [[dt ix]|e]; cbn beta iota; [|discriminate].
      intros H; injection H as <- _; discriminate. }
  split; [exact Hb|].
  destruct (c_bm25 c') as [ix|] eqn:Hc'; [|contradiction].
  exact (ensure_index_built _ _ _ _ _ Hc').
Qed.

(** ** Instances *)

Local Open Scope string_scope.

Lemma extract_person_names_shape_witness :
  In "Vikram Desai"%string (extract_person_names "Who is Vikram Desai?"%string)
  /\ (exists c rest, chars "Vikram Desai"%string = c :: rest /\ is_upper c = true)
  /\ contains (chars "Vikram Desai"%string) (chars "Who is Vikram Desai?"%string) = true
  /\ ~ In (str (lower (chars "Vikram Desai"%string))) QUESTION_WORDS.
Proof.
  assert (H : In "Vikram Desai"%string (extract_person_names "Who is Vikram Desai?"%string))
    by (vm_compute; left; reflexivity).
  split; [exact H|exact (extract_person_names_shape _ _ H)].
Defined.

Lemma filter_candidates_sublist_witness :
  filter_candidates_by_entities [0; 1; 2] "What did Alice say?"
    [mkMessage "Alice" "hi" (naive 1); mkMessage "Bob" "yo" (naive 2); mkMessage "Alice" "ok" (naive 3)]%string
  = Ok [0; 2]
  /\ exists f, [0; 2] = filter f [0; 1; 2].
Proof.
  assert (H : filter_candidates_by_entities [0; 1; 2] "What did Alice say?"
    [mkMessage "Alice" "hi" (naive 1); mkMessage "Bob" "yo" (naive 2); mkMessage "Alice" "ok" (naive 3)]%string
    = Ok [0; 2]) by (vm_compute; reflexivity).
  split; [exact H|exact (filter_candidates_sublist _ _ _ _ H)].
Defined.

Lemma answer_from_errors_witness :
  argsort_spec stable_argsort
  /\ (forall ix, Some (mkBM25 [["alice"; "dinner"; "at"; "nobu"]])%string = Some ix ->
     List.length (map (fun _ => 0%Z) (bm25_corpus ix))
     = List.length [mkMessage "Alice" "Dinner AT Nobu" (naive 1)]%string)
  /\ answer_from stable_argsort (fun ix _ => map (fun _ => 0%Z) (bm25_corpus ix))
       [mkMessage "Alice" "Dinner AT Nobu" (naive 1)]%string
       (Some (mkBM25 [["alice"; "dinner"; "at"; "nobu"]])%string) "Which place?"%string
     = Err IndexError
  /\ (IndexError = IndexError
      /\ (extract_question_type "Which place?"%string = WHICH
          \/ extract_question_type "Which place?"%string = WHAT_ARE)).
Proof.
  assert (H1 : forall ix, Some (mkBM25 [["alice"; "dinner"; "at"; "nobu"]])%string = Some ix ->
     List.length (map (fun _ => 0%Z) (bm25_corpus ix))
     = List.length [mkMessage "Alice" "Dinner AT Nobu" (naive 1)]%string)
    by (intros ix Hix; injection Hix as <-; reflexivity).
  assert (H2 : answer_from stable_argsort (fun ix _ => map (fun _ => 0%Z) (bm25_corpus ix))
       [mkMessage "Alice" "Dinner AT Nobu" (naive 1)]%string
       (Some (mkBM25 [["alice"; "dinner"; "at"; "nobu"]])%string) "Which place?"%string
     = Err IndexError) by (vm_compute; reflexivity).
  split; [exact stable_argsort_spec|split; [exact H1|split; [exact H2|]]].
  exact (answer_from_errors stable_argsort (fun ix _ => map (fun _ => 0%Z) (bm25_corpus ix))
           _ _ _ _ stable_argsort_spec H1 H2).
Defined.

Lemma answer_from_grounded_witness :
  answer_from stable_argsort (fun ix _ => map (fun _ => 0%Z) (bm25_corpus ix))
    [mkMessage "Alice" "Dinner in Paris" (naive 1); mkMessage "Bob" "late because of rain" (naive 2)]%string
    (Some (mkBM25 [["alice"; "dinner"; "in"; "paris"]; ["bob"; "late"; "because"; "of"; "rain"]])%string)
    "Why was Bob late?"%string
  = Ok "late because of rain"%string
  /\ ("late because of rain"%string = NOT_FOUND_ANSWER
      \/ exists m, In m [mkMessage "Alice" "Dinner in Paris" (naive 1);
                         mkMessage "Bob" "late because of rain" (naive 2)]%string
         /\ "late because of rain"%string = message m
         /\ contains (chars "because") (lower (chars "late because of rain")) = true).
Proof.
  assert (H : answer_from stable_argsort (fun ix _ => map (fun _ => 0%Z) (bm25_corpus ix))
    [mkMessage "Alice" "Dinner in Paris" (naive 1); mkMessage "Bob" "late because of rain" (naive 2)]%string
    (Some (mkBM25 [["alice"; "dinner"; "in"; "paris"]; ["bob"; "late"; "because"; "of"; "rain"]])%string)
    "Why was Bob late?"%string
    = Ok "late because of rain"%string) by (vm_compute; reflexivity).
  split; [exact H|].
  exact (answer_from_grounded _ _ _ _ _ _ H).
Defined.

Lemma fetch_messages_sorted_witness :
  fetch_messages (fun t => if String.eqb t "2024-01-01" then Some (naive 1) else Some (naive 2)) 0
    (mkSource None [mkRawItem (Some "Bob") (Some "late") (Some "2024-01-02");
                    mkRawItem (Some "Alice") (Some "hi") (Some "2024-01-01")]%string)
  = Ok [mkMessage "Alice" "hi" (naive 1); mkMessage "Bob" "late" (naive 2)]%string
  /\ Sorted (fun a b => (dt_value (timestamp a) <= dt_value (timestamp b))%Z)
       [mkMessage "Alice" "hi" (naive 1); mkMessage "Bob" "late" (naive 2)]%string.
Proof.
  assert (H : fetch_messages (fun t => if String.eqb t "2024-01-01" then Some (naive 1) else Some (naive 2)) 0
    (mkSource None [mkRawItem (Some "Bob") (Some "late") (Some "2024-01-02");
                    mkRawItem (Some "Alice") (Some "hi") (Some "2024-01-01")]%string)
    = Ok [mkMessage "Alice" "hi" (naive 1); mkMessage "Bob" "late" (naive 2)]%string)
    by (vm_compute; reflexivity).
  split; [exact H|exact (fetch_messages_sorted _ _ _ _ H)].
Defined.

Lemma answer_question_built_witness :
  c_bm25 (mkCache [mkMessage "Alice" "hi" (naive 1)] [["alice"; "hi"]]
            (Some (mkBM25 [["alice"; "hi"]])))%string
  = Some (mkBM25 [["alice"; "hi"]])%string
  /\ answer_question stable_argsort (fun ix _ => map (fun _ => 0%Z) (bm25_corpus ix)) (fun _ => None) 0
       (mkSource None []) "?!"%string
       (mkCache [mkMessage "Alice" "hi" (naive 1)] [["alice"; "hi"]]
          (Some (mkBM25 [["alice"; "hi"]])))%string
     = (Ok NOT_FOUND_ANSWER,
        mkCache [mkMessage "Alice" "hi" (naive 1)] [["alice"; "hi"]]
          (Some (mkBM25 [["alice"; "hi"]]))%string, []).
Proof.
  split; [reflexivity|].
  apply (answer_question_built stable_argsort
           (fun ix _ => map (fun _ => 0%Z) (bm25_corpus ix))
           (fun _ => None) 0 (mkSource None [])
           (mkCache [mkMessage "Alice" "hi" (naive 1)] [["alice"; "hi"]]
              (Some (mkBM25 [["alice"; "hi"]])))%string
           (mkBM25 [["alice"; "hi"]])%string "?!"%string); [reflexivity|].
  intros ch Hch; vm_compute in Hch.
  destruct Hch as [<-|[<-|[]]]; reflexivity.
Defined.

Lemma ensure_index_idempotent_witness :
  exists c' t,
    ensure_index (fun _ => None) 0
      (mkSource None [mkRawItem (Some "Alice") (Some "hi") None]%string) empty_cache
    = (Ok tt, c', t)
    /\ c_bm25 c' <> None
    /\ ensure_index (fun _ => None) 0 (mkSource None []) c' = (Ok tt, c', []).
Proof.
  set (r := ensure_index (fun _ => None) 0
              (mkSource None [mkRawItem (Some "Alice") (Some "hi") None]%string) empty_cache).
  exists (snd (fst r)), (snd r).
  assert (H : r = (Ok tt, snd (fst r), snd r)) by (vm_compute; reflexivity).
  split; [exact H|].
  exact (ensure_index_idempotent (fun _ => None) 0 _ (mkSource None []) empty_cache _ _ H).
Defined.
